(** * A-star grid search: a shallow embedding of [astar] and its properties

    The repository holds one algorithm, the function [astar] of
    [astarclaude.py] (repeated verbatim in [interactive.py]): A-star search on
    a 2-D occupancy grid with the Manhattan heuristic, unit edge costs, a
    binary heap of [(f, counter, position)] tuples with lazy deletion, and
    path reconstruction through the [came_from] dictionary.

    Python integers are [Z]; coordinates are pairs of integers; the grid is a
    list of rows; the dictionaries [came_from] and [g_score] are finite maps
    and [visited] is a finite set.  Exceptions ([IndexError], [KeyError]) are
    explicit results.  The two [while] loops run on fuel; the fuel that
    [astar] hands out is shown to be enough on every input. *)

From stdpp Require Import gmap list sorting strings.
From Stdlib Require Import ZArith Lia Ascii.

#[local] Set Warnings "-clear-no-such-hyp".
Local Open Scope Z_scope.

(** ** Results of Python computations *)

Inductive exn : Type := IndexError | KeyError.

Inductive result (A : Type) : Type :=
| Ret (a : A)
| Raise (e : exn)
| OutOfFuel.

Arguments Ret {A} a.
Arguments Raise {A} e.
Arguments OutOfFuel {A}.

#[global] Instance result_bind : MBind result := λ A B k m,
  match m with
  | Ret a => k a
  | Raise e => Raise e
  | OutOfFuel => OutOfFuel
  end.

Fixpoint filterM {A : Type} (p : A → result bool) (l : list A) : result (list A) :=
  match l with
  | [] => Ret []
  | x :: l' =>
      b ← p x;
      r ← filterM p l';
      Ret (if b : bool then x :: r else r)
  end.

Fixpoint foldM {A S : Type} (f : A → S → result S) (l : list A) (s : S) : result S :=
  match l with
  | [] => Ret s
  | x :: l' => s' ← f x s; foldM f l' s'
  end.

(** ** Python containers *)

Abbreviation coord := (Z * Z)%type.
Abbreviation grid_t := (list (list Z)).

(** [len(l)] *)
Definition len {A : Type} (l : list A) : Z := Z.of_nat (length l).

(** [l[i]], with Python's negative indices and [IndexError]. *)
Definition getitem {A : Type} (l : list A) (i : Z) : result A :=
  let j := if 0 <=? i then i else len l + i in
  if 0 <=? j then
    match l !! Z.to_nat j with
    | Some x => Ret x
    | None => Raise IndexError
    end
  else Raise IndexError.

(** [d[k]] on a dictionary, with [KeyError]. *)
Definition dict_get {V : Type} (d : gmap coord V) (k : coord) : result V :=
  match d !! k with
  | Some v => Ret v
  | None => Raise KeyError
  end.

(** ** The heap of [(f_score, counter, position)] tuples *)

Abbreviation entry := (Z * Z * coord)%type.

Definition entry_f (e : entry) : Z := e.1.1.
Definition entry_counter (e : entry) : Z := e.1.2.
Definition entry_pos (e : entry) : coord := e.2.

(** Python's [<] on tuples is lexicographic. *)
Definition coord_ltb (p q : coord) : bool :=
  (p.1 <? q.1) || ((p.1 =? q.1) && (p.2 <? q.2)).

Definition entry_ltb (a b : entry) : bool :=
  (entry_f a <? entry_f b)
  || ((entry_f a =? entry_f b)
      && ((entry_counter a <? entry_counter b)
          || ((entry_counter a =? entry_counter b)
              && coord_ltb (entry_pos a) (entry_pos b)))).

(** [heapq] keeps the entries in a list arranged as a binary heap.  The search
    only observes which item [heappop] hands back, the smallest one, so the
    heap is kept here as the list of its entries in insertion order. *)
Definition heappush (pq : list entry) (e : entry) : list entry := pq ++ [e].

Fixpoint heap_min (e : entry) (l : list entry) : entry :=
  match l with
  | [] => e
  | x :: l' => heap_min (if entry_ltb x e then x else e) l'
  end.

Fixpoint remove_first (e : entry) (l : list entry) : list entry :=
  match l with
  | [] => []
  | x :: l' => if decide (x = e) then l' else x :: remove_first e l'
  end.

Definition heappop (pq : list entry) : option (entry * list entry) :=
  match pq with
  | [] => None
  | e :: l => let m := heap_min e l in Some (m, remove_first m pq)
  end.

(** ** The search state *)

Record state : Type := State {
  pq : list entry;
  counter : Z;
  came_from : gmap coord coord;
  g_score : gmap coord Z;
  visited : gset coord
}.

Inductive step_out : Type :=
| Next (st : state)
| Done (r : option (list coord)).

Module AstarClaude.
Section Astar.

Variable grid : grid_t.
Variable start goal : coord.

(** [rows, cols = len(grid), len(grid[0])] *)
Definition rows : Z := len grid.

Section WithCols.
Variable cols : Z.

(** Heuristic: Manhattan distance *)
Definition h (pos : coord) : Z :=
  Z.abs (pos.1 - goal.1) + Z.abs (pos.2 - goal.2).

(** The comprehension's condition
    [0 <= nr < rows and 0 <= nc < cols and grid[nr][nc] == 0]:
    the grid is read only when both range tests pass. *)
Definition valid (p : coord) : result bool :=
  let '(nr, nc) := p in
  if (0 <=? nr) && (nr <? rows) && ((0 <=? nc) && (nc <? cols)) then
    row ← getitem grid nr;
    cell ← getitem row nc;
    Ret (cell =? 0)
  else Ret false.

(** Get valid neighboring positions *)
Definition neighbors (pos : coord) : result (list coord) :=
  let '(r, c) := pos in
  let candidates := [(r + 1, c); (r - 1, c); (r, c + 1); (r, c - 1)] in
  filterM valid candidates.

Definition init_state : state :=
  {| pq := [(h start, 0, start)];
     counter := 0 + 1;
     came_from := ∅;
     g_score := {[start := 0]};
     visited := ∅ |}.

(** The body of [for nb in neighbors(curr)]. *)
Definition relax (curr nb : coord) (st : state) : result state :=
  gc ← dict_get (g_score st) curr;
  let tentative_g := gc + 1 in
  let better :=
    match g_score st !! nb with
    | None => true
    | Some g => tentative_g <? g
    end in
  if better then
    let f_score := tentative_g + h nb in
    Ret {| pq := heappush (pq st) (f_score, counter st, nb);
           counter := counter st + 1;
           came_from := <[nb := curr]> (came_from st);
           g_score := <[nb := tentative_g]> (g_score st);
           visited := visited st |}
  else Ret st.

(** [while curr in came_from: curr = came_from[curr]; path.append(curr)] *)
Fixpoint reconstruct (fuel : nat) (cf : gmap coord coord) (curr : coord)
    (path : list coord) : result (list coord) :=
  match fuel with
  | O => OutOfFuel
  | S n =>
      match cf !! curr with
      | Some prev => reconstruct n cf prev (path ++ [prev])
      | None => Ret path
      end
  end.

(** One round of [while pq:].  A loop-free walk along [came_from] takes at
    most one hop per key, which fixes the fuel given to [reconstruct]. *)
Definition astar_step (st : state) : result step_out :=
  match heappop (pq st) with
  | None => Ret (Done None)
  | Some ((_, _, curr), pq') =>
      if decide (curr = goal) then
        path ← reconstruct (S (size (came_from st))) (came_from st) curr [curr];
        Ret (Done (Some (reverse path)))
      else if decide (curr ∈ visited st) then
        Ret (Next {| pq := pq'; counter := counter st;
                     came_from := came_from st; g_score := g_score st;
                     visited := visited st |})
      else
        let st1 := {| pq := pq'; counter := counter st;
                      came_from := came_from st; g_score := g_score st;
                      visited := {[curr]} ∪ visited st |} in
        nbs ← neighbors curr;
        st2 ← foldM (relax curr) nbs st1;
        Ret (Next st2)
  end.

Fixpoint astar_loop (fuel : nat) (st : state) : result (option (list coord)) :=
  match fuel with
  | O => OutOfFuel
  | S n =>
      r ← astar_step st;
      match r with
      | Next st' => astar_loop n st'
      | Done res => Ret res
      end
  end.

End WithCols.

Definition astar_fuel (fuel : nat) : result (option (list coord)) :=
  row0 ← getitem grid 0;
  let cols := len row0 in
  astar_loop cols fuel (init_state).

(** Every round pops one entry and at most four are pushed per expanded
    cell; only [start] and the cells of the grid are ever expanded. *)
Definition search_fuel : nat :=
  match grid with
  | [] => 0
  | row0 :: _ => 4 * (length grid * length row0 + 1) + 2
  end%nat.

Definition astar : result (option (list coord)) := astar_fuel search_fuel.

End Astar.
End AstarClaude.

(** The same function as [interactive.py] has it, ahead of its GUI. *)
Module Interactive.
Section Astar.

Variable grid : grid_t.
Variable start goal : coord.

Definition rows : Z := len grid.

Section WithCols.
Variable cols : Z.

(** Heuristic: Manhattan distance *)
Definition h (pos : coord) : Z :=
  Z.abs (pos.1 - goal.1) + Z.abs (pos.2 - goal.2).

Definition valid (p : coord) : result bool :=
  let '(nr, nc) := p in
  if (0 <=? nr) && (nr <? rows) && ((0 <=? nc) && (nc <? cols)) then
    row ← getitem grid nr;
    cell ← getitem row nc;
    Ret (cell =? 0)
  else Ret false.

(** Get valid neighboring positions *)
Definition neighbors (pos : coord) : result (list coord) :=
  let '(r, c) := pos in
  let candidates := [(r + 1, c); (r - 1, c); (r, c + 1); (r, c - 1)] in
  filterM valid candidates.

Definition init_state : state :=
  {| pq := [(h start, 0, start)];
     counter := 0 + 1;
     came_from := ∅;
     g_score := {[start := 0]};
     visited := ∅ |}.

Definition relax (curr nb : coord) (st : state) : result state :=
  gc ← dict_get (g_score st) curr;
  let tentative_g := gc + 1 in
  let better :=
    match g_score st !! nb with
    | None => true
    | Some g => tentative_g <? g
    end in
  if better then
    let f_score := tentative_g + h nb in
    Ret {| pq := heappush (pq st) (f_score, counter st, nb);
           counter := counter st + 1;
           came_from := <[nb := curr]> (came_from st);
           g_score := <[nb := tentative_g]> (g_score st);
           visited := visited st |}
  else Ret st.

Fixpoint reconstruct (fuel : nat) (cf : gmap coord coord) (curr : coord)
    (path : list coord) : result (list coord) :=
  match fuel with
  | O => OutOfFuel
  | S n =>
      match cf !! curr with
      | Some prev => reconstruct n cf prev (path ++ [prev])
      | None => Ret path
      end
  end.

Definition astar_step (st : state) : result step_out :=
  match heappop (pq st) with
  | None => Ret (Done None)
  | Some ((_, _, curr), pq') =>
      if decide (curr = goal) then
        path ← reconstruct (S (size (came_from st))) (came_from st) curr [curr];
        Ret (Done (Some (reverse path)))
      else if decide (curr ∈ visited st) then
        Ret (Next {| pq := pq'; counter := counter st;
                     came_from := came_from st; g_score := g_score st;
                     visited := visited st |})
      else
        let st1 := {| pq := pq'; counter := counter st;
                      came_from := came_from st; g_score := g_score st;
                      visited := {[curr]} ∪ visited st |} in
        nbs ← neighbors curr;
        st2 ← foldM (relax curr) nbs st1;
        Ret (Next st2)
  end.

Fixpoint astar_loop (fuel : nat) (st : state) : result (option (list coord)) :=
  match fuel with
  | O => OutOfFuel
  | S n =>
      r ← astar_step st;
      match r with
      | Next st' => astar_loop n st'
      | Done res => Ret res
      end
  end.

End WithCols.

Definition astar_fuel (fuel : nat) : result (option (list coord)) :=
  row0 ← getitem grid 0;
  let cols := len row0 in
  astar_loop cols fuel (init_state).

Definition search_fuel : nat :=
  match grid with
  | [] => 0
  | row0 :: _ => 4 * (length grid * length row0 + 1) + 2
  end%nat.

Definition astar : result (option (list coord)) := astar_fuel search_fuel.

End Astar.
End Interactive.

(** The grid of the example at the end of [astarclaude.py]. *)
Definition example_grid : grid_t :=
  [ [0; 0; 0; 0; 0];
    [0; 1; 1; 0; 0];
    [0; 0; 0; 0; 1];
    [0; 1; 0; 1; 0];
    [0; 0; 0; 0; 0] ].


(** ** The order of tuples, as a relation *)

Definition coord_lt (p q : coord) : Prop :=
  p.1 < q.1 ∨ (p.1 = q.1 ∧ p.2 < q.2).

Definition entry_lt (a b : entry) : Prop :=
  entry_f a < entry_f b
  ∨ (entry_f a = entry_f b
     ∧ (entry_counter a < entry_counter b
        ∨ (entry_counter a = entry_counter b
           ∧ coord_lt (entry_pos a) (entry_pos b)))).

(** [a <= b] on tuples: [b < a] fails. *)
Definition entry_le (a b : entry) : Prop := ¬ entry_lt b a.

(** ** Grids, routes and distances, as the specification speaks of them *)

(** The cell at a coordinate, when the coordinate is inside the grid. *)
Definition cell_at (grid : grid_t) (p : coord) : option Z :=
  if (0 <=? p.1) && (0 <=? p.2) then
    grid !! Z.to_nat p.1 ≫= λ row, row !! Z.to_nat p.2
  else None.

Definition in_bounds (grid : grid_t) (p : coord) : Prop := is_Some (cell_at grid p).

(** [0] marks a walkable cell, anything else an obstacle. *)
Definition walkable (grid : grid_t) (p : coord) : Prop := cell_at grid p = Some 0.

#[global] Instance walkable_dec grid p : Decision (walkable grid p).
Proof. unfold walkable. apply _. Defined.

Definition blocked (grid : grid_t) (p : coord) : Prop :=
  ∃ v, cell_at grid p = Some v ∧ v ≠ 0.

Definition rectangular (grid : grid_t) : Prop :=
  ∀ r1 r2, r1 ∈ grid → r2 ∈ grid → length r1 = length r2.

(** The size of the grid: [rows] rows of [cols] cells. *)
Definition grid_rows (grid : grid_t) : Z := len grid.
Definition grid_cols (grid : grid_t) : Z := from_option len 0 (head grid).

(** One unit apart in exactly one axis. *)
Definition adjacent (p q : coord) : Prop :=
  (p.1 = q.1 ∧ Z.abs (p.2 - q.2) = 1) ∨ (p.2 = q.2 ∧ Z.abs (p.1 - q.1) = 1).

Fixpoint chain (R : coord → coord → Prop) (l : list coord) : Prop :=
  match l with
  | x :: l' =>
      match l' with
      | y :: _ => R x y ∧ chain R l'
      | [] => True
      end
  | [] => True
  end.

(** A 4-connected route from [s] to [t] through walkable cells. *)
Definition route (grid : grid_t) (s t : coord) (l : list coord) : Prop :=
  head l = Some s ∧ last l = Some t ∧ Forall (walkable grid) l ∧ chain adjacent l.

(** The number of steps of a path: its length minus one. *)
Definition steps (l : list coord) : Z := len l - 1.

(** [d] is the shortest 4-directional distance from [s] to [t]. *)
Definition shortest_distance (grid : grid_t) (s t : coord) (d : Z) : Prop :=
  (∃ l, route grid s t l ∧ steps l = d) ∧ ∀ l, route grid s t l → d ≤ steps l.

(** ** The graph the search explores *)

(** [neighbors] moves to an adjacent walkable cell; the cell moved from is
    not inspected. *)
Definition edge (grid : grid_t) (u v : coord) : Prop :=
  adjacent u v ∧ walkable grid v.

(** The four candidates of [neighbors], in the order of the source. *)
Definition candidates (u : coord) : list coord :=
  [(u.1 + 1, u.2); (u.1 - 1, u.2); (u.1, u.2 + 1); (u.1, u.2 - 1)].

(** [reach grid start n x]: [n] moves lead from [start] to [x]. *)
Inductive reach (grid : grid_t) (start : coord) : Z → coord → Prop :=
| reach_start : reach grid start 0 start
| reach_step n u v :
    reach grid start n u → edge grid u v → reach grid start (n + 1) v.

(** ** The invariant of the search loop

    [todo u v] marks the moves out of the cell being expanded that the inner
    [for] loop has not handled yet; between two rounds of the [while] loop
    there are none. *)

Record Inv (grid : grid_t) (start goal : coord)
    (todo : coord → coord → Prop) (st : state) : Prop := {
  inv_start : g_score st !! start = Some 0;
  inv_reach : ∀ x gx, g_score st !! x = Some gx → reach grid start gx x;
  inv_parent : ∀ x p, came_from st !! x = Some p →
    edge grid p x ∧
    ∃ gx gp, g_score st !! x = Some gx ∧ g_score st !! p = Some gp ∧ gp + 1 ≤ gx;
  inv_origin : ∀ x, is_Some (g_score st !! x) →
    x = start ∨ is_Some (came_from st !! x);
  inv_closed : ∀ x, x ∈ visited st →
    ∃ gx, g_score st !! x = Some gx ∧ ∀ n, reach grid start n x → gx ≤ n;
  inv_expanded : ∀ u v, u ∈ visited st → edge grid u v →
    todo u v ∨
    ∃ gu gv, g_score st !! u = Some gu ∧ g_score st !! v = Some gv ∧ gv ≤ gu + 1;
  inv_open : ∀ x gx, g_score st !! x = Some gx → x ∉ visited st →
    ∃ c, (gx + AstarClaude.h goal x, c, x) ∈ pq st;
  inv_queue : ∀ e, e ∈ pq st →
    ∃ gx, g_score st !! entry_pos e = Some gx
          ∧ gx + AstarClaude.h goal (entry_pos e) ≤ entry_f e;
  inv_goal : goal ∉ visited st
}.

Definition no_todo : coord → coord → Prop := λ _ _, False.

Definition todo_from (curr : coord) (l : list coord) : coord → coord → Prop :=
  λ u v, u = curr ∧ v ∈ l.

(** What a returned path looks like, in terms of the explored graph. *)
Definition good_path (grid : grid_t) (start goal : coord) (path : list coord) : Prop :=
  head path = Some start ∧ last path = Some goal
  ∧ chain (edge grid) path
  ∧ ∀ n, reach grid start n goal → steps path ≤ n.

(** ** What bounds the work of the search

    Only [start] and the cells of the grid are ever closed, and every closed
    cell has put at most four entries on the heap. *)

Definition grid_cells (grid : grid_t) (row0 : list Z) : list coord :=
  list_prod (seqZ 0 (len grid)) (seqZ 0 (len row0)).

Definition universe (grid : grid_t) (row0 : list Z) (start : coord) : gset coord :=
  {[start]} ∪ list_to_set (grid_cells grid row0).

Definition measure (U : gset coord) (st : state) : nat :=
  (4 * size (U ∖ visited st) + length (pq st))%nat.

(** The cells of a grid that are not walkable, row by row. *)
Definition obstacles (grid : grid_t) : list coord :=
  filter (λ p, ¬ walkable grid p) (grid_cells grid (default [] (head grid))).

(** ** The states a search goes through *)

Inductive reachable (grid : grid_t) (start goal : coord) (cols : Z) : state → Prop :=
| reachable_init : reachable grid start goal cols (AstarClaude.init_state start goal)
| reachable_step st st' :
    reachable grid start goal cols st →
    AstarClaude.astar_step grid goal cols st = Ret (Next st') →
    reachable grid start goal cols st'.

(** ** Runs of the search for any arrangement of the heap

    [heapq] promises the smallest item, not a layout.  Two states are the
    same to the search when their heaps hold the same entries; a run may
    rearrange the heap between any two rounds of the loop. *)

Definition same_heap (st st' : state) : Prop :=
  pq st ≡ₚ pq st' ∧ counter st = counter st'
  ∧ came_from st = came_from st' ∧ g_score st = g_score st'
  ∧ visited st = visited st'.

Inductive run (grid : grid_t) (goal : coord) (cols : Z) :
    state → option (list coord) → Prop :=
| run_done st st1 res :
    same_heap st st1 →
    AstarClaude.astar_step grid goal cols st1 = Ret (Done res) →
    run grid goal cols st res
| run_next st st1 st' res :
    same_heap st st1 →
    AstarClaude.astar_step grid goal cols st1 = Ret (Next st') →
    run grid goal cols st' res →
    run grid goal cols st res.

(** An invocation [astar(grid, start, goal)] that returns [res]. *)
Definition astar_returns (grid : grid_t) (start goal : coord)
    (res : option (list coord)) : Prop :=
  ∃ row0, getitem grid 0 = Ret row0
          ∧ run grid goal (len row0) (AstarClaude.init_state start goal) res.

(** Results that agree up to a relation on their values. *)
Definition result_rel {A : Type} (R : A → A → Prop) (r1 r2 : result A) : Prop :=
  match r1, r2 with
  | Ret a, Ret b => R a b
  | Raise e, Raise e' => e = e'
  | OutOfFuel, OutOfFuel => True
  | _, _ => False
  end.

Definition step_out_rel (o1 o2 : step_out) : Prop :=
  match o1, o2 with
  | Next a, Next b => same_heap a b
  | Done r, Done r' => r = r'
  | _, _ => False
  end.

(** The sequence numbers on the heap, oldest entry first, and the next one
    to hand out. *)
Definition counters_ok (st : state) : Prop :=
  StronglySorted Z.lt (entry_counter <$> pq st)
  ∧ 0 < counter st
  ∧ ∀ e, e ∈ pq st → 0 ≤ entry_counter e < counter st.

(** ** The picture printed by the example of [astarclaude.py]

    One line per row of the grid: two characters per cell, a mark and a
    space. *)

Module Demo.
Section Picture.

Variable grid : grid_t.
Variables start goal : coord.
Variable path : list coord.

(** The [if/elif] chain: what one cell adds to [row]. *)
Definition symbol (r c : Z) : result string :=
  if decide ((r, c) = start) then Ret "S "%string
  else if decide ((r, c) = goal) then Ret "G "%string
  else if decide ((r, c) ∈ path) then Ret "* "%string
  else
    line ← getitem grid r;
    v ← getitem line c;
    Ret (if v =? 1 then "# "%string else ". "%string).

(** [for c in range(len(grid[0]))] *)
Definition picture_row (r : Z) : result string :=
  row0 ← getitem grid 0;
  foldM (λ c row, s ← symbol r c; Ret (row +:+ s)) (seqZ 0 (len row0)) ""%string.

(** [for r in range(len(grid))], each [print(row)] one more line. *)
Definition picture : result (list string) :=
  foldM (λ r out, row ← picture_row r; Ret (out ++ [row])) (seqZ 0 (len grid)) [].

End Picture.
End Demo.

(** ** The window of [interactive.py]: class [AStarGUI]

    The object keeps the grid, the click mode, start, goal and the path on
    display; the canvas is kept as what each cell's rectangle and label
    currently show.  A handler may raise: a failed lookup, or a division by a
    zero cell size. *)

Inductive gui_exn : Type :=
| LookupError (e : exn)
| ZeroDivisionError.

Inductive gui_result (A : Type) : Type :=
| Ok (a : A)
| Err (e : gui_exn)
| Stuck.

Arguments Ok {A} a.
Arguments Err {A} e.
Arguments Stuck {A}.

#[global] Instance gui_result_bind : MBind gui_result := λ A B k m,
  match m with
  | Ok a => k a
  | Err e => Err e
  | Stuck => Stuck
  end.

Definition lift {A : Type} (r : result A) : gui_result A :=
  match r with
  | Ret a => Ok a
  | Raise e => Err (LookupError e)
  | OutOfFuel => Stuck
  end.

(** [a // b] on integers *)
Definition floordiv (a b : Z) : gui_result Z :=
  if b =? 0 then Err ZeroDivisionError else Ok (a / b).

(** [l[i] = v], with Python's negative indices and [IndexError]. *)
Definition setitem {A : Type} (l : list A) (i : Z) (v : A) : result (list A) :=
  let j := if 0 <=? i then i else len l + i in
  if (0 <=? j) && (j <? len l) then Ret (<[Z.to_nat j := v]> l)
  else Raise IndexError.

(** [grid[r][c] = v]: the row object is updated in place. *)
Definition setitem2 (grid : grid_t) (r c : Z) (v : Z) : result grid_t :=
  row ← getitem grid r;
  row' ← setitem row c v;
  setitem grid r row'.

(** Fill colour, label text and label colour of one cell. *)
Abbreviation look := (string * string * string)%type.

(** What the message boxes say. *)
Inductive dialog : Type := Missing | NoPath.

(** The three radio buttons. *)
Inductive radio : Type := Walls | Start | Goal.

Inductive event : Type :=
| Click (x y : Z)
| Choose (b : radio)
| RunAStar
| ClearPath
| ResetAll.

Module AStarGUI.

Record gui : Type := Gui {
  rows : Z;
  cols : Z;
  cell : Z;
  pad : Z;
  grid : grid_t;
  mode : string;
  start : option coord;
  goal : option coord;
  path : list coord;
  canvas : gmap coord look
}.

Definition with_grid (g : grid_t) (self : gui) : gui :=
  Gui (rows self) (cols self) (cell self) (pad self) g (mode self)
      (start self) (goal self) (path self) (canvas self).
Definition with_mode (m : string) (self : gui) : gui :=
  Gui (rows self) (cols self) (cell self) (pad self) (grid self) m
      (start self) (goal self) (path self) (canvas self).
Definition with_start (s : option coord) (self : gui) : gui :=
  Gui (rows self) (cols self) (cell self) (pad self) (grid self) (mode self)
      s (goal self) (path self) (canvas self).
Definition with_goal (t : option coord) (self : gui) : gui :=
  Gui (rows self) (cols self) (cell self) (pad self) (grid self) (mode self)
      (start self) t (path self) (canvas self).
Definition with_path (p : list coord) (self : gui) : gui :=
  Gui (rows self) (cols self) (cell self) (pad self) (grid self) (mode self)
      (start self) (goal self) p (canvas self).
Definition with_canvas (cv : gmap coord look) (self : gui) : gui :=
  Gui (rows self) (cols self) (cell self) (pad self) (grid self) (mode self)
      (start self) (goal self) (path self) cv.

Definition C_PATH : string := "#d9ead3".
Definition C_START : string := "#d0e2f4".
Definition C_EMPTY : string := "#f3f3f3".
Definition C_GOAL : string := "#d9d3e9".
Definition C_WALL : string := "#1c1c1c".

(** [for r in range(rows): for c in range(cols)] *)
Definition cells (self : gui) : list coord :=
  list_prod (seqZ 0 (rows self)) (seqZ 0 (cols self)).

(** The corners [(x0, y0, x1, y1)] of the rectangle drawn for cell [(r, c)]. *)
Definition cell_rect (self : gui) (r c : Z) : Z * Z * Z * Z :=
  let x0 := pad self + c * cell self in
  let y0 := pad self + r * cell self in
  let x1 := x0 + cell self - 2 in
  let y1 := y0 + cell self - 2 in
  (x0, y0, x1, y1).

(** The size [(w_px, h_px)] given to the canvas. *)
Definition canvas_size (self : gui) : Z * Z :=
  (cols self * cell self + 2 * pad self, rows self * cell self + 2 * pad self).

(** The [if/elif] chain of [refresh_all] for one cell. *)
Definition look_of (self : gui) (path_set : gset coord) (rc : coord) : result look :=
  if decide (start self = Some rc) then Ret (C_START, "S", "black")
  else if decide (goal self = Some rc) then Ret (C_GOAL, "G", "black")
  else
    row ← getitem (grid self) rc.1;
    v ← getitem row rc.2;
    if v =? 1 then Ret (C_WALL, "W", "white")
    else if decide (rc ∈ path_set ∧ Some rc ≠ start self ∧ Some rc ≠ goal self)
    then Ret (C_PATH, "•", "black")
    else Ret (C_EMPTY, "", "black").

(** One round of the inner loop of [refresh_all]: the items of the cell are
    looked up, then configured. *)
Definition refresh_cell (path_set : gset coord) (rc : coord) (self : gui) : result gui :=
  _ ← dict_get (canvas self) rc;
  lk ← look_of self path_set rc;
  Ret (with_canvas (<[rc := lk]> (canvas self)) self).

Definition refresh_all (self : gui) : result gui :=
  let path_set : gset coord := list_to_set (path self) in
  foldM (refresh_cell path_set) (cells self) self.

(** [__init__]: an empty grid, mode ["wall"], no start, no goal, no path, one
    rectangle and one label per cell, then a first [refresh_all]. *)
Definition init (rows cols cell pad : Z) : result gui :=
  let grid := replicate (Z.to_nat rows) (replicate (Z.to_nat cols) 0) in
  let items : gmap coord look :=
    list_to_map ((λ rc, (rc, (C_EMPTY, "", "black")))
                   <$> list_prod (seqZ 0 rows) (seqZ 0 cols)) in
  refresh_all (Gui rows cols cell pad grid "wall" None None [] items).

Definition pixel_to_cell (self : gui) (px py : Z) : gui_result (option coord) :=
  let px := px - pad self in
  let py := py - pad self in
  if (px <? 0) || (py <? 0) then Ok None
  else
    c ← floordiv px (cell self);
    r ← floordiv py (cell self);
    if (0 <=? r) && (r <? rows self) && ((0 <=? c) && (c <? cols self))
    then Ok (Some (r, c))
    else Ok None.

Definition on_click (self : gui) (x y : Z) : gui_result gui :=
  pos ← pixel_to_cell self x y;
  match pos with
  | None => Ok self
  | Some (r, c) =>
      let mode := mode self in
      (* clear only the path display *)
      let self := with_path [] self in
      if decide (mode = "wall") then
        if decide (start self = Some (r, c) ∨ goal self = Some (r, c)) then Ok self
        else
          row ← lift (getitem (grid self) r);
          v ← lift (getitem row c);
          grid' ← lift (setitem2 (grid self) r c (if v =? 1 then 0 else 1));
          lift (refresh_all (with_grid grid' self))
      else if decide (mode = "start") then
        row ← lift (getitem (grid self) r);
        v ← lift (getitem row c);
        if (v =? 1) || bool_decide (goal self = Some (r, c)) then Ok self
        else lift (refresh_all (with_start (Some (r, c)) self))
      else if decide (mode = "goal") then
        row ← lift (getitem (grid self) r);
        v ← lift (getitem row c);
        if (v =? 1) || bool_decide (start self = Some (r, c)) then Ok self
        else lift (refresh_all (with_goal (Some (r, c)) self))
      else lift (refresh_all self)
  end.

Definition run (self : gui) : gui_result (gui * option dialog) :=
  self ← lift (refresh_all (with_path [] self));
  match start self, goal self with
  | Some s, Some t =>
      found ← lift (Interactive.astar (grid self) s t);
      match found with
      | None | Some [] => Ok (self, Some NoPath)
      | Some p =>
          self ← lift (refresh_all (with_path p self));
          Ok (self, None)
      end
  | _, _ => Ok (self, Some Missing)
  end.

Definition clear_path (self : gui) : gui_result gui :=
  lift (refresh_all (with_path [] self)).

Definition reset_all (self : gui) : gui_result gui :=
  let grid := replicate (Z.to_nat (cols self)) 0 in
  lift (refresh_all
          (with_path []
             (with_grid (replicate (Z.to_nat (rows self)) grid)
                (with_goal None (with_start None self))))).

(** The value a radio button writes into [mode]. *)
Definition radio_value (b : radio) : string :=
  match b with
  | Walls => "wall"
  | Start => "start"
  | Goal => "goal"
  end.

(** The callbacks, as the main loop dispatches them. *)
Definition handle (self : gui) (ev : event) : gui_result (gui * option dialog) :=
  match ev with
  | Click x y => self' ← on_click self x y; Ok (self', None)
  | Choose b => Ok (with_mode (radio_value b) self, None)
  | RunAStar => run self
  | ClearPath => self' ← clear_path self; Ok (self', None)
  | ResetAll => self' ← reset_all self; Ok (self', None)
  end.

(** The states the window goes through. *)
Inductive reachable (rows0 cols0 cell0 pad0 : Z) : gui → Prop :=
| reachable_init self :
    init rows0 cols0 cell0 pad0 = Ret self → reachable rows0 cols0 cell0 pad0 self
| reachable_handle self ev self' d :
    reachable rows0 cols0 cell0 pad0 self →
    handle self ev = Ok (self', d) →
    reachable rows0 cols0 cell0 pad0 self'.

End AStarGUI.

(** *** What the window keeps true *)

(** The grid has [rows] rows of [cols] cells, each [0] or [1], and every
    cell has its items on the canvas. *)
Definition gui_wf (self : AStarGUI.gui) : Prop :=
  length (AStarGUI.grid self) = Z.to_nat (AStarGUI.rows self)
  ∧ Forall (λ row, length row = Z.to_nat (AStarGUI.cols self)
                   ∧ Forall (λ v, v = 0 ∨ v = 1) row) (AStarGUI.grid self)
  ∧ ∀ rc, rc ∈ AStarGUI.cells self → is_Some (AStarGUI.canvas self !! rc).

(** Start and goal, once chosen, are two different walkable cells. *)
Definition ends_ok (self : AStarGUI.gui) : Prop :=
  (∀ s, AStarGUI.start self = Some s → walkable (AStarGUI.grid self) s)
  ∧ (∀ t, AStarGUI.goal self = Some t → walkable (AStarGUI.grid self) t)
  ∧ ∀ s t, AStarGUI.start self = Some s → AStarGUI.goal self = Some t → s ≠ t.

(** The path kept for display is empty or what [astar] returns now. *)
Definition path_ok (self : AStarGUI.gui) : Prop :=
  AStarGUI.path self = []
  ∨ ∃ s t, AStarGUI.start self = Some s ∧ AStarGUI.goal self = Some t
           ∧ Interactive.astar (AStarGUI.grid self) s t
             = Ret (Some (AStarGUI.path self)).

(** What [refresh_all] puts on a cell when the path on display is [p]. *)
Definition shown (self : AStarGUI.gui) (p : list coord) (rc : coord) : look :=
  if decide (AStarGUI.start self = Some rc) then (AStarGUI.C_START, "S", "black")%string
  else if decide (AStarGUI.goal self = Some rc) then (AStarGUI.C_GOAL, "G", "black")%string
  else if decide (cell_at (AStarGUI.grid self) rc = Some 1)
  then (AStarGUI.C_WALL, "W", "white")%string
  else if decide (rc ∈ p ∧ Some rc ≠ AStarGUI.start self ∧ Some rc ≠ AStarGUI.goal self)
  then (AStarGUI.C_PATH, "•", "black")%string
  else (AStarGUI.C_EMPTY, "", "black")%string.

(** The canvas shows the state with the path [p]. *)
Definition canvas_shows (self : AStarGUI.gui) (p : list coord) : Prop :=
  ∀ rc, rc ∈ AStarGUI.cells self →
        AStarGUI.canvas self !! rc = Some (shown self p rc).

Definition gui_inv (self : AStarGUI.gui) : Prop :=
  gui_wf self ∧ ends_ok self ∧ path_ok self ∧ ∃ p, canvas_shows self p.

(** The size of the window never changes. *)
Definition same_frame (a b : AStarGUI.gui) : Prop :=
  AStarGUI.rows a = AStarGUI.rows b ∧ AStarGUI.cols a = AStarGUI.cols b
  ∧ AStarGUI.cell a = AStarGUI.cell b ∧ AStarGUI.pad a = AStarGUI.pad b.

(** The label text of a cell on the canvas. *)
Definition label_at (self : AStarGUI.gui) (rc : coord) : option string :=
  (λ lk : look, lk.1.2) <$> AStarGUI.canvas self !! rc.

(** The window after a list of events, each handled without an error. *)
Fixpoint play (self : AStarGUI.gui) (evs : list event) : gui_result AStarGUI.gui :=
  match evs with
  | [] => Ok self
  | ev :: evs' => r ← AStarGUI.handle self ev; play r.1 evs'
  end.

(** A small window: a wall at the top left, start at the top right, goal
    at the bottom left. *)
Definition example_clicks : list event :=
  [Click 5 5; Choose Start; Click 15 5; Choose Goal; Click 5 15].

Definition example_window : AStarGUI.gui :=
  Eval vm_compute in
    match self ← lift (AStarGUI.init 2 2 10 3); play self example_clicks with
    | Ok self => self
    | _ => AStarGUI.Gui 0 0 0 0 [] "" None None [] ∅
    end.

(** The same window once "Run A*" has been pressed. *)
Definition example_window_run : AStarGUI.gui :=
  Eval vm_compute in
    match play example_window [RunAStar] with
    | Ok self => self
    | _ => AStarGUI.Gui 0 0 0 0 [] "" None None [] ∅
    end.

(** A pixel of the rectangle drawn for cell [(r, c)]. *)
Definition in_rect (self : AStarGUI.gui) (r c : Z) (px py : Z) : Prop :=
  let '(x0, y0, x1, y1) := AStarGUI.cell_rect self r c in
  x0 ≤ px ≤ x1 ∧ y0 ≤ py ≤ y1.

(** The mark of a cell in the picture, read off the grid. *)
Definition mark (grid : grid_t) (start goal : coord) (path : list coord)
    (rc : coord) : ascii :=
  if decide (rc = start) then "S"%char
  else if decide (rc = goal) then "G"%char
  else if decide (rc ∈ path) then "*"%char
  else if decide (cell_at grid rc = Some 1) then "#"%char
  else "."%char.

(** The characters of row [r] of the picture over the columns [l]. *)
Definition marks (grid : grid_t) (start goal : coord) (path : list coord)
    (r : Z) (l : list Z) : list ascii :=
  l ≫= λ c, [mark grid start goal path (r, c); " "%char].

(** A two by two grid with one obstacle, at the top right. *)
Definition small_grid : grid_t := [[0; 1]; [0; 0]].

(** ** Walks from an unchecked start

    [astar] never looks at the cell it starts from: a walk only needs its
    cells after the first to be walkable. *)
Definition walk (grid : grid_t) (s t : coord) (l : list coord) : Prop :=
  head l = Some s ∧ last l = Some t
  ∧ chain adjacent l ∧ Forall (walkable grid) (tail l).

(** ** Grids that are not rectangles of zeros and ones *)

(** The grid cut to the width of its first row. *)
Definition clip (grid : grid_t) : grid_t :=
  take (Z.to_nat (grid_cols grid)) <$> grid.

(** Every nonzero cell written as the obstacle [1]. *)
Definition binarize (grid : grid_t) : grid_t :=
  (λ row : list Z, (λ v, if v =? 0 then 0 else 1) <$> row) <$> grid.

(** ** The order on heap entries *)

Lemma entry_ltb_lt a b : entry_ltb a b = true ↔ entry_lt a b.
Proof.
  unfold entry_ltb, entry_lt, coord_ltb, coord_lt.
  repeat first [rewrite orb_true_iff | rewrite andb_true_iff
                | rewrite Z.ltb_lt | rewrite Z.eqb_eq].
  tauto.
Qed.

Lemma entry_ltb_false a b : entry_ltb a b = false ↔ entry_le b a.
Proof.
  unfold entry_le. rewrite <- entry_ltb_lt. destruct (entry_ltb a b); naive_solver.
Qed.

Ltac entry_order :=
  unfold entry_le, entry_lt, coord_lt, entry_f, entry_counter, entry_pos in *;
  simpl in *; lia.

Lemma entry_le_refl a : entry_le a a.
Proof. entry_order. Qed.

Lemma entry_le_trans a b c : entry_le a b → entry_le b c → entry_le a c.
Proof. entry_order. Qed.

Lemma entry_lt_le a b : entry_lt a b → entry_le a b.
Proof. entry_order. Qed.

Lemma entry_le_total a b : entry_le a b ∨ entry_le b a.
Proof. entry_order. Qed.

Lemma entry_le_antisym (a b : entry) : entry_le a b → entry_le b a → a = b.
Proof.
  destruct a as [[fa ca] [ra qa]], b as [[fb cb] [rb qb]]. intros H1 H2.
  assert (fa = fb ∧ ca = cb ∧ ra = rb ∧ qa = qb) as (-> & -> & -> & ->)
    by entry_order.
  reflexivity.
Qed.

(** An entry is below another as soon as it is below on [(f, counter)]. *)
Lemma entry_le_f a b : entry_le a b → entry_f a ≤ entry_f b.
Proof. entry_order. Qed.

(** *** [heappop] hands back a smallest entry and keeps the others *)

Lemma heap_min_in e l : heap_min e l ∈ e :: l.
Proof.
  revert e. induction l as [|x l IH]; intros e; simpl.
  - set_solver.
  - pose proof (IH (if entry_ltb x e then x else e)) as IH1.
    destruct (entry_ltb x e); set_solver.
Qed.

Lemma heap_min_le e l x : x ∈ e :: l → entry_le (heap_min e l) x.
Proof.
  revert e x. induction l as [|y l IH]; intros e x Hx; simpl.
  - apply list_elem_of_singleton in Hx as ->. apply entry_le_refl.
  - destruct (entry_ltb y e) eqn:Hye.
    + apply entry_ltb_lt in Hye.
      assert (entry_le (heap_min y l) y) as Hy by (apply IH; set_solver).
      apply elem_of_cons in Hx as [->|Hx].
      * eapply entry_le_trans; [exact Hy|]. by apply entry_lt_le.
      * apply IH. set_solver.
    + apply entry_ltb_false in Hye.
      assert (entry_le (heap_min e l) e) as He by (apply IH; set_solver).
      apply elem_of_cons in Hx as [->|Hx]; [done|].
      apply elem_of_cons in Hx as [->|Hx].
      * eapply entry_le_trans; [exact He|done].
      * apply IH. set_solver.
Qed.

Lemma remove_first_perm (e : entry) l : e ∈ l → l ≡ₚ e :: remove_first e l.
Proof.
  induction l as [|x l IH]; intros He; [by apply elem_of_nil in He|].
  simpl. destruct (decide (x = e)) as [->|Hne]; [done|].
  apply elem_of_cons in He as [->|He]; [done|].
  rewrite (IH He) at 1. apply Permutation_swap.
Qed.

Lemma heappop_None l : heappop l = None ↔ l = [].
Proof. destruct l; simpl; naive_solver. Qed.

Lemma heappop_Some l m rest :
  heappop l = Some (m, rest) →
  l ≡ₚ m :: rest ∧ ∀ x, x ∈ l → entry_le m x.
Proof.
  destruct l as [|e l]; [done|]. unfold heappop. intros [= <- <-]. split.
  - apply remove_first_perm, heap_min_in.
  - intros x Hx. by apply heap_min_le.
Qed.

(** ** Reading the grid *)

Lemma getitem_Some {A : Type} (l : list A) (i : Z) (x : A) :
  0 ≤ i → l !! Z.to_nat i = Some x → getitem l i = Ret x.
Proof.
  intros Hi Hx. unfold getitem.
  destruct (0 <=? i) eqn:E; [|lia]. rewrite E, Hx. done.
Qed.

Lemma h_consistent goal u v :
  adjacent u v → AstarClaude.h goal u ≤ AstarClaude.h goal v + 1.
Proof. unfold adjacent, AstarClaude.h. lia. Qed.

Lemma adjacent_sym u v : adjacent u v → adjacent v u.
Proof. unfold adjacent. lia. Qed.

Section Grid.

Variable grid : grid_t.
Variable row0 : list Z.
Hypothesis Hrow0 : grid !! 0%nat = Some row0.
Hypothesis Hrect : rectangular grid.

Local Abbreviation cols := (len row0).

Lemma row_length r row : grid !! r = Some row → length row = length row0.
Proof using Hrow0 Hrect.
  intros Hr. apply Hrect; eapply list_elem_of_lookup_2; eauto.
Qed.

Lemma valid_cell p :
  AstarClaude.valid grid cols p =
  Ret (match cell_at grid p with Some cell => cell =? 0 | None => false end).
Proof using Hrow0 Hrect.
  destruct p as [nr nc]. unfold AstarClaude.valid, cell_at,
    AstarClaude.rows, len. simpl.
  destruct (0 <=? nr) eqn:E1; simpl; [|done].
  destruct (nr <? Z.of_nat (length grid)) eqn:E2; simpl.
  - destruct (0 <=? nc) eqn:E3; simpl; [|done].
    destruct (lookup_lt_is_Some_2 grid (Z.to_nat nr)) as [row Hrow]; [lia|].
    rewrite Hrow. simpl.
    destruct (nc <? Z.of_nat (length row0)) eqn:E4; simpl.
    + erewrite getitem_Some by (first [lia | eassumption]). simpl.
      destruct (lookup_lt_is_Some_2 row (Z.to_nat nc)) as [cell Hcell].
      { rewrite (row_length _ _ Hrow). lia. }
      rewrite Hcell. erewrite getitem_Some by (first [lia | eassumption]).
      done.
    + rewrite (lookup_ge_None_2 row); [done|].
      rewrite (row_length _ _ Hrow). lia.
  - rewrite (lookup_ge_None_2 grid); [|lia]. simpl.
    by destruct (0 <=? nc).
Qed.

Lemma valid_walkable p :
  AstarClaude.valid grid cols p = Ret (bool_decide (walkable grid p)).
Proof using Hrow0 Hrect.
  rewrite valid_cell. f_equal.
  destruct (decide (walkable grid p)) as [Hw|Hw].
  - rewrite bool_decide_eq_true_2 by done. unfold walkable in Hw. by rewrite Hw.
  - rewrite bool_decide_eq_false_2 by done. unfold walkable in Hw.
    destruct (cell_at grid p) as [cell|]; [|done].
    destruct (Z.eqb_spec cell 0) as [->|Hne]; done.
Qed.

Lemma filterM_valid l :
  filterM (AstarClaude.valid grid cols) l = Ret (filter (walkable grid) l).
Proof using Hrow0 Hrect.
  induction l as [|x l IH]; [done|]. simpl.
  rewrite valid_walkable, IH. simpl. rewrite filter_cons.
  destruct (decide (walkable grid x)) as [Hw|Hw].
  - by rewrite bool_decide_eq_true_2.
  - by rewrite bool_decide_eq_false_2.
Qed.

Lemma neighbors_filter u :
  AstarClaude.neighbors grid cols u = Ret (filter (walkable grid) (candidates u)).
Proof using Hrow0 Hrect.
  destruct u as [r c]. unfold AstarClaude.neighbors. apply filterM_valid.
Qed.

Lemma elem_of_candidates u v : v ∈ candidates u ↔ adjacent u v.
Proof.
  destruct u as [r c], v as [r' c']. unfold candidates, adjacent. simpl.
  rewrite !elem_of_cons, elem_of_nil. split.
  - intros [H|[H|[H|[H|[]]]]]; injection H as -> ->; lia.
  - intros H.
    assert ((r' = r + 1 ∧ c' = c) ∨ (r' = r - 1 ∧ c' = c)
            ∨ (r' = r ∧ c' = c + 1) ∨ (r' = r ∧ c' = c - 1))
      as [[-> ->]|[[-> ->]|[[-> ->]|[-> ->]]]] by lia; auto.
Qed.

Lemma elem_of_neighbors u v :
  v ∈ filter (walkable grid) (candidates u) ↔ edge grid u v.
Proof.
  rewrite list_elem_of_filter, elem_of_candidates. unfold edge. tauto.
Qed.

Lemma neighbors_length u :
  (length (filter (walkable grid) (candidates u)) ≤ 4)%nat.
Proof. etrans; [apply length_filter|]. done. Qed.

End Grid.

(** ** The invariant is kept by the loop *)

Section Invariant.

Variable grid : grid_t.
Variables start goal : coord.

Local Abbreviation Inv' := (Inv grid start goal).
Local Abbreviation reach' := (reach grid start).
Local Abbreviation h' := (AstarClaude.h goal).

Lemma reach_nonneg n x : reach' n x → 0 ≤ n.
Proof. induction 1; lia. Qed.

Lemma reach_node n x : reach' n x → x = start ∨ walkable grid x.
Proof. destruct 1 as [|n u v _ [_ Hv]]; auto. Qed.

Lemma edge_irrefl u : ¬ edge grid u u.
Proof. intros [H _]. unfold adjacent in H. lia. Qed.

Lemma Inv_weaken (todo todo' : coord → coord → Prop) st :
  (∀ u v, todo u v → todo' u v) → Inv' todo st → Inv' todo' st.
Proof.
  intros Hsub [? ? ? ? ? Hexp ? ? ?]. split; try done.
  intros u v Hu Huv. destruct (Hexp u v Hu Huv) as [?|?]; auto.
Qed.

Lemma Inv_init : Inv' no_todo (AstarClaude.init_state start goal).
Proof.
  split; simpl.
  - apply lookup_singleton_eq.
  - intros x gx [-> <-]%lookup_singleton_Some. constructor.
  - intros x p. by rewrite lookup_empty.
  - intros x [gx [-> _]%lookup_singleton_Some]. by left.
  - intros x Hx. by apply not_elem_of_empty in Hx.
  - intros u v Hu. by apply not_elem_of_empty in Hu.
  - intros x gx [-> <-]%lookup_singleton_Some _. exists 0. set_solver.
  - intros e ->%list_elem_of_singleton. exists 0. simpl.
    rewrite lookup_singleton_eq. split; [done|]. unfold entry_f. simpl. lia.
  - apply not_elem_of_empty.
Qed.

(** *** One neighbour that improves: [came_from], [g_score] and the heap
    are updated *)

Lemma relax_push_Inv curr nb rest st gc :
  Inv' (todo_from curr (nb :: rest)) st →
  curr ∈ visited st → edge grid curr nb →
  g_score st !! curr = Some gc →
  (∀ gnb, g_score st !! nb = Some gnb → gc + 1 < gnb) →
  Inv' (todo_from curr rest)
    {| pq := heappush (pq st) (gc + 1 + h' nb, counter st, nb);
       counter := counter st + 1;
       came_from := <[nb := curr]> (came_from st);
       g_score := <[nb := gc + 1]> (g_score st);
       visited := visited st |}.
Proof.
  intros HI Hcurr Hedge Hgc Hbetter.
  pose proof (inv_reach _ _ _ _ _ HI _ _ Hgc) as Hrc.
  pose proof (reach_nonneg _ _ Hrc) as Hgc0.
  assert (reach' (gc + 1) nb) as Hrnb by (econstructor; eauto).
  assert (nb ∉ visited st) as Hnbv.
  { intros Hv. destruct (inv_closed _ _ _ _ _ HI nb Hv) as (gnb & Hgnb & Hmin).
    specialize (Hmin _ Hrnb). specialize (Hbetter _ Hgnb). lia. }
  assert (nb ≠ start) as Hnbs.
  { intros ->. specialize (Hbetter _ (inv_start _ _ _ _ _ HI)). lia. }
  assert (nb ≠ curr) as Hnbc by (intros ->; done).
  destruct HI as [Hst Hre Hpa Hor Hcl Hex Hop Hqu Hgo].
  split; simpl.
  - by rewrite lookup_insert_ne.
  - intros x gx [[<- <-]|[Hne Hx]]%lookup_insert_Some; eauto.
  - intros x p [[<- <-]|[Hne Hx]]%lookup_insert_Some.
    + split; [done|]. exists (gc + 1), gc.
      rewrite lookup_insert_eq, lookup_insert_ne by done. split_and!; [done..|lia].
    + destruct (Hpa x p Hx) as (He & gx & gp & Hgx & Hgp & Hle).
      split; [done|]. destruct (decide (p = nb)) as [->|Hpn].
      * exists gx, (gc + 1). rewrite lookup_insert_eq, lookup_insert_ne by done.
        specialize (Hbetter _ Hgp). split_and!; [done..|lia].
      * exists gx, gp. rewrite !lookup_insert_ne by done. done.
  - intros x Hx. destruct (decide (x = nb)) as [->|Hne].
    + right. rewrite lookup_insert_eq. eauto.
    + rewrite lookup_insert_ne in Hx by done. rewrite lookup_insert_ne by done.
      auto.
  - intros x Hx. assert (x ≠ nb) by (intros ->; done).
    rewrite lookup_insert_ne by done. auto.
  - intros u v Hu Huv. assert (u ≠ nb) by (intros ->; done).
    destruct (Hex u v Hu Huv) as [[-> Hv]|(gu & gv & Hgu & Hgv & Hle)].
    + apply elem_of_cons in Hv as [->|Hv]; [|by left].
      right. exists gc, (gc + 1).
      rewrite lookup_insert_eq, lookup_insert_ne by done. split_and!; [done..|lia].
    + right. destruct (decide (v = nb)) as [->|Hvn].
      * exists gu, (gc + 1). rewrite lookup_insert_eq, lookup_insert_ne by done.
        specialize (Hbetter _ Hgv). split_and!; [done..|lia].
      * exists gu, gv. rewrite !lookup_insert_ne by done. done.
  - intros x gx [[<- <-]|[Hne Hx]]%lookup_insert_Some Hxv.
    + exists (counter st). unfold heappush. set_solver.
    + destruct (Hop x gx Hx Hxv) as [c Hc]. exists c. unfold heappush. set_solver.
  - intros e [He| ->%list_elem_of_singleton]%elem_of_app.
    + destruct (Hqu e He) as (gx & Hgx & Hle).
      destruct (decide (entry_pos e = nb)) as [Heq|Hne].
      * exists (gc + 1). rewrite Heq in *. rewrite lookup_insert_eq.
        specialize (Hbetter _ Hgx). split; [done|lia].
      * exists gx. by rewrite lookup_insert_ne.
    + exists (gc + 1). unfold entry_pos, entry_f. simpl.
      rewrite lookup_insert_eq. split; [done|lia].
  - done.
Qed.

(** *** One neighbour that does not improve: nothing changes *)

Lemma relax_skip_Inv curr nb rest st gc gnb :
  Inv' (todo_from curr (nb :: rest)) st →
  g_score st !! curr = Some gc →
  g_score st !! nb = Some gnb → gnb ≤ gc + 1 →
  Inv' (todo_from curr rest) st.
Proof.
  intros [Hst Hre Hpa Hor Hcl Hex Hop Hqu Hgo] Hgc Hgnb Hle.
  split; try done.
  intros u v Hu Huv. destruct (Hex u v Hu Huv) as [[-> Hv]|?]; [|by right].
  apply elem_of_cons in Hv as [->|Hv]; [|by left].
  right. eauto.
Qed.

Lemma relax_Inv curr nb rest st :
  Inv' (todo_from curr (nb :: rest)) st →
  curr ∈ visited st → edge grid curr nb →
  ∃ st', AstarClaude.relax goal curr nb st = Ret st'
         ∧ Inv' (todo_from curr rest) st'
         ∧ visited st' = visited st
         ∧ (length (pq st') ≤ S (length (pq st)))%nat.
Proof.
  intros HI Hcurr Hedge.
  destruct (inv_closed _ _ _ _ _ HI curr Hcurr) as (gc & Hgc & _).
  unfold AstarClaude.relax, dict_get. rewrite Hgc. simpl.
  destruct (g_score st !! nb) as [gnb|] eqn:Hgnb.
  - destruct (Z.ltb_spec (gc + 1) gnb) as [Hlt|Hge].
    + eexists. split; [done|]. split_and!.
      * eapply relax_push_Inv; eauto. intros g. rewrite Hgnb. by intros [= <-].
      * done.
      * simpl. unfold heappush. rewrite length_app. simpl. lia.
    + exists st. split_and!; [done| |done|lia].
      eapply relax_skip_Inv; eauto.
  - eexists. split; [done|]. split_and!.
    + eapply relax_push_Inv; eauto. intros g. by rewrite Hgnb.
    + done.
    + simpl. unfold heappush. rewrite length_app. simpl. lia.
Qed.

(** *** The whole [for] loop *)

Lemma expand_Inv curr nbs st :
  Inv' (todo_from curr nbs) st →
  curr ∈ visited st → (∀ nb, nb ∈ nbs → edge grid curr nb) →
  ∃ st', foldM (AstarClaude.relax goal curr) nbs st = Ret st'
         ∧ Inv' no_todo st'
         ∧ visited st' = visited st
         ∧ (length (pq st') ≤ length (pq st) + length nbs)%nat.
Proof.
  revert st. induction nbs as [|nb rest IH]; intros st HI Hcurr Hedges.
  - exists st. simpl. split_and!; [done| |done|lia].
    eapply Inv_weaken; [|exact HI]. intros u v [_ Hv]. by apply elem_of_nil in Hv.
  - destruct (relax_Inv curr nb rest st HI Hcurr) as (st1 & Hst1 & HI1 & Hv1 & Hl1).
    { apply Hedges. set_solver. }
    destruct (IH st1 HI1) as (st' & Hst' & HI' & Hv' & Hl').
    { by rewrite Hv1. }
    { intros v Hv. apply Hedges. set_solver. }
    exists st'. simpl. rewrite Hst1. simpl. split_and!; [done|done|congruence|].
    simpl. lia.
Qed.

(** *** The entry that is popped carries an optimal cost

    Along any walk from [start], either every cell is closed, or some open
    cell on it has an [f] value bounded by the walk's length plus the
    heuristic of its end: the Manhattan distance is consistent. *)

Lemma frontier st n x :
  Inv' no_todo st → reach' n x →
  x ∈ visited st
  ∨ ∃ y gy, (y ∉ visited st) ∧ g_score st !! y = Some gy ∧ gy + h' y ≤ n + h' x.
Proof.
  intros HI. induction 1 as [|n u v Hu IH Huv].
  - destruct (decide (start ∈ visited st)) as [?|Hs]; [by left|].
    right. exists start, 0. split_and!; [done|apply HI|lia].
  - destruct IH as [Huvis|(y & gy & Hy & Hgy & Hle)].
    + destruct (inv_expanded _ _ _ _ _ HI u v Huvis Huv)
        as [[]|(gu & gv & Hgu & Hgv & Hle)].
      destruct (inv_closed _ _ _ _ _ HI u Huvis) as (gu' & Hgu' & Hmin).
      assert (gu' = gu) as -> by congruence.
      specialize (Hmin _ Hu).
      destruct (decide (v ∈ visited st)) as [?|Hv]; [by left|].
      right. exists v, gv. split_and!; [done..|lia].
    + right. exists y, gy. split_and!; [done..|].
      pose proof (h_consistent goal u v (proj1 Huv)). lia.
Qed.

Lemma popped_optimal st e rest :
  Inv' no_todo st → heappop (pq st) = Some (e, rest) →
  entry_pos e ∉ visited st →
  ∃ gc, g_score st !! entry_pos e = Some gc
        ∧ ∀ n, reach' n (entry_pos e) → gc ≤ n.
Proof.
  intros HI [Hperm Hmin]%heappop_Some Hcv.
  assert (e ∈ pq st) as He by (rewrite Hperm; set_solver).
  destruct (inv_queue _ _ _ _ _ HI e He) as (gc & Hgc & Hf).
  exists gc. split; [done|]. intros n Hn.
  destruct (frontier st n _ HI Hn) as [?|(y & gy & Hy & Hgy & Hle)]; [done|].
  destruct (inv_open _ _ _ _ _ HI y gy Hgy Hy) as [c Hc].
  apply Hmin, entry_le_f in Hc. unfold entry_f at 2 in Hc. simpl in Hc. lia.
Qed.

(** *** Popping a stale entry *)

Lemma pop_stale_Inv st e rest :
  Inv' no_todo st → heappop (pq st) = Some (e, rest) →
  entry_pos e ∈ visited st →
  Inv' no_todo {| pq := rest; counter := counter st;
                  came_from := came_from st; g_score := g_score st;
                  visited := visited st |}.
Proof.
  intros [Hst Hre Hpa Hor Hcl Hex Hop Hqu Hgo] [Hperm Hmin]%heappop_Some Hcv.
  split; simpl; try done.
  - intros x gx Hx Hxv. destruct (Hop x gx Hx Hxv) as [c Hc]. exists c.
    rewrite Hperm in Hc. apply elem_of_cons in Hc as [<-|Hc]; [|done].
    by destruct Hxv.
  - intros e' He'. apply Hqu. rewrite Hperm. set_solver.
Qed.

(** *** Popping an open cell: it is closed with its optimal cost *)

Lemma pop_open_Inv st e rest nbs :
  Inv' no_todo st → heappop (pq st) = Some (e, rest) →
  entry_pos e ∉ visited st → entry_pos e ≠ goal →
  (∀ v, edge grid (entry_pos e) v → v ∈ nbs) →
  Inv' (todo_from (entry_pos e) nbs)
    {| pq := rest; counter := counter st;
       came_from := came_from st; g_score := g_score st;
       visited := {[entry_pos e]} ∪ visited st |}.
Proof.
  intros HI Hpop Hcv Hcg Hnbs.
  destruct (popped_optimal st e rest HI Hpop Hcv) as (gc & Hgc & Hopt).
  destruct HI as [Hst Hre Hpa Hor Hcl Hex Hop Hqu Hgo].
  apply heappop_Some in Hpop as [Hperm Hmin].
  split; simpl; try done.
  - intros x [->%elem_of_singleton|Hx]%elem_of_union; eauto.
  - intros u v [->%elem_of_singleton|Hu]%elem_of_union Huv.
    + left. split; auto.
    + destruct (Hex u v Hu Huv) as [[]|?]. by right.
  - intros x gx Hx Hxv. apply not_elem_of_union in Hxv as [Hxe Hxv].
    destruct (Hop x gx Hx Hxv) as [c Hc]. exists c.
    rewrite Hperm in Hc. apply elem_of_cons in Hc as [<-|Hc]; [|done].
    set_solver.
  - intros e' He'. apply Hqu. rewrite Hperm. set_solver.
  - set_solver.
Qed.

(** *** Walking back along [came_from]

    The costs strictly decrease along [came_from], so the walk meets no
    cell twice and ends at [start], the only cell with a cost and no
    predecessor. *)

Lemma reconstruct_spec (todo : coord → coord → Prop) (st : state) (fuel : nat) (curr : coord) (path : list coord)
    (gcur : Z) (seen : gset coord) :
  Inv' todo st →
  g_score st !! curr = Some gcur →
  seen ⊆ dom (came_from st) →
  (∀ x, x ∈ seen → ∃ gx, g_score st !! x = Some gx ∧ gcur < gx) →
  (size (came_from st) < fuel + size seen)%nat →
  head (reverse path) = Some curr →
  chain (edge grid) (reverse path) →
  ∃ p, AstarClaude.reconstruct fuel (came_from st) curr path = Ret p
       ∧ head (reverse p) = Some start
       ∧ chain (edge grid) (reverse p)
       ∧ last (reverse p) = last (reverse path)
       ∧ len p ≤ len path + gcur.
Proof.
  intros HI. revert curr path gcur seen.
  induction fuel as [|fuel IH]; intros curr path gcur seen Hg Hseen Hgt Hsz Hhd Hch.
  - apply subseteq_size in Hseen. rewrite size_dom in Hseen. lia.
  - simpl. destruct (came_from st !! curr) as [prev|] eqn:Hcf.
    + destruct (inv_parent _ _ _ _ _ HI _ _ Hcf) as (He & gx & gp & Hgx & Hgp & Hle).
      assert (gx = gcur) as -> by congruence.
      assert (curr ∉ seen) as Hns.
      { intros Hin. destruct (Hgt _ Hin) as (g' & Hg' & ?).
        assert (g' = gcur) by congruence. lia. }
      apply head_Some in Hhd as [t Ht].
      destruct (IH prev (path ++ [prev]) gp ({[curr]} ∪ seen)) as (p & Hp & H1 & H2 & H3 & H4).
      * done.
      * apply union_subseteq. split; [|done].
        apply singleton_subseteq_l, elem_of_dom. eauto.
      * intros x [->%elem_of_singleton|Hx]%elem_of_union.
        -- exists gcur. split; [done|lia].
        -- destruct (Hgt x Hx) as (g' & Hg' & ?). exists g'. split; [done|lia].
      * rewrite size_union by set_solver. rewrite size_singleton. lia.
      * by rewrite reverse_snoc.
      * rewrite reverse_snoc. rewrite Ht in Hch |- *. by split.
      * exists p. split_and!; [done..| |].
        -- rewrite H3, reverse_snoc, Ht. apply last_cons_cons.
        -- unfold len in *. rewrite length_app in H4. simpl in H4. lia.
    + exists path. split_and!; [done| |done|done|].
      * destruct (inv_origin _ _ _ _ _ HI curr) as [->|[? Hc]]; [eauto|done|].
        congruence.
      * pose proof (reach_nonneg _ _ (inv_reach _ _ _ _ _ HI _ _ Hg)). lia.
Qed.

Lemma reconstruct_goal st e rest :
  Inv' no_todo st → heappop (pq st) = Some (e, rest) → entry_pos e = goal →
  ∃ p, AstarClaude.reconstruct (S (size (came_from st))) (came_from st) goal [goal]
       = Ret p ∧ good_path grid start goal (reverse p).
Proof.
  intros HI Hpop Heg.
  destruct (popped_optimal st e rest HI Hpop) as (gg & Hgg & Hopt).
  { rewrite Heg. apply HI. }
  rewrite Heg in *.
  destruct (reconstruct_spec no_todo st (S (size (came_from st))) goal [goal] gg ∅)
    as (p & Hp & H1 & H2 & H3 & H4); try done.
  - rewrite size_empty. lia.
  - exists p. split; [done|]. split_and!; [done|by rewrite H3|done|].
    intros n Hn. specialize (Hopt n Hn). unfold steps, len in *.
    rewrite length_reverse. simpl in H4. lia.
Qed.

End Invariant.

(** ** One round of the [while] loop, and the loop *)

Lemma size_list_to_set_le (l : list coord) :
  (size (list_to_set (C := gset coord) l) ≤ length l)%nat.
Proof.
  induction l as [|x l IH].
  - rewrite list_to_set_nil, size_empty. done.
  - rewrite list_to_set_cons, size_union_alt, size_singleton. simpl.
    assert (size (list_to_set (C := gset coord) l ∖ {[x]})
            ≤ size (list_to_set (C := gset coord) l))%nat
      by (apply subseteq_size; set_solver).
    lia.
Qed.

Section Loop.

Variable grid : grid_t.
Variables start goal : coord.
Variable row0 : list Z.
Hypothesis Hrow0 : grid !! 0%nat = Some row0.
Hypothesis Hrect : rectangular grid.

Local Abbreviation Inv' := (Inv grid start goal).
Local Abbreviation reach' := (reach grid start).
Local Abbreviation cols := (len row0).
Local Abbreviation U := (universe grid row0 start).

Lemma walkable_in_cells p : walkable grid p → p ∈ grid_cells grid row0.
Proof using Hrow0 Hrect.
  destruct p as [r c]. unfold walkable, cell_at, grid_cells. simpl.
  destruct (0 <=? r) eqn:E1; [|done]. destruct (0 <=? c) eqn:E2; [|done].
  simpl. destruct (grid !! Z.to_nat r) as [row|] eqn:Hrow; [|done]. simpl.
  intros Hc. apply list_elem_of_In, in_prod_iff.
  rewrite <- !list_elem_of_In, !elem_of_seqZ.
  apply lookup_lt_Some in Hc. rewrite (row_length grid row0 Hrow0 Hrect _ _ Hrow) in Hc.
  apply lookup_lt_Some in Hrow. unfold len. lia.
Qed.

Lemma size_universe : (size U ≤ length grid * length row0 + 1)%nat.
Proof.
  unfold universe. rewrite size_union_alt, size_singleton.
  etrans; [apply Nat.add_le_mono_l, subseteq_size,
           (subseteq_difference_l _ _ _ (reflexivity _))|].
  pose proof (size_list_to_set_le (grid_cells grid row0)) as Hle.
  unfold grid_cells in Hle at 2. rewrite length_prod, !length_seqZ in Hle.
  unfold len in Hle. rewrite !Nat2Z.id in Hle. lia.
Qed.

Lemma known_in_universe todo st x :
  Inv' todo st → is_Some (g_score st !! x) → x ∈ U.
Proof using Hrow0 Hrect.
  intros HI [gx Hgx]. unfold universe.
  destruct (reach_node _ _ _ _ (inv_reach _ _ _ _ _ HI _ _ Hgx)) as [->|Hw].
  - set_solver.
  - apply walkable_in_cells in Hw. set_solver.
Qed.

Lemma astar_step_spec st :
  Inv' no_todo st →
  match AstarClaude.astar_step grid goal cols st with
  | Ret (Next st') => Inv' no_todo st' ∧ (measure U st' < measure U st)%nat
  | Ret (Done None) => pq st = []
  | Ret (Done (Some path)) => good_path grid start goal path
  | _ => False
  end.
Proof using Hrow0 Hrect.
  intros HI. unfold AstarClaude.astar_step.
  destruct (heappop (pq st)) as [[e rest]|] eqn:Hpop;
    [|by apply heappop_None in Hpop].
  pose proof (heappop_Some _ _ _ Hpop) as [Hperm Hmin].
  assert (length (pq st) = S (length rest)) as Hlen by (by rewrite Hperm).
  destruct e as [[f c] curr].
  destruct (decide (curr = goal)) as [Hg|Hg].
  - destruct (reconstruct_goal grid start goal st _ rest HI Hpop Hg) as (p & Hp & Hgood).
    rewrite Hg, Hp. done.
  - destruct (decide (curr ∈ visited st)) as [Hv|Hv].
    + split; [by apply (pop_stale_Inv grid start goal st _ rest HI Hpop)|].
      unfold measure. simpl. lia.
    + rewrite (neighbors_filter grid row0 Hrow0 Hrect). simpl.
      set (nbs := filter (walkable grid) (candidates curr)).
      destruct (expand_Inv grid start goal curr nbs
                  {| pq := rest; counter := counter st;
                     came_from := came_from st; g_score := g_score st;
                     visited := {[curr]} ∪ visited st |})
        as (st' & Hst' & HI' & Hvis & Hl).
      * apply (pop_open_Inv grid start goal st _ rest nbs HI Hpop); [done..|].
        intros v Hv'. by apply elem_of_neighbors.
      * set_solver.
      * intros v Hv'. by apply elem_of_neighbors in Hv'.
      * rewrite Hst'. simpl. split; [done|]. unfold measure. rewrite Hvis.
        simpl in Hl. pose proof (neighbors_length grid curr) as Hn4. fold nbs in Hn4.
        assert (curr ∈ U) as HcU.
        { eapply known_in_universe; [exact HI|].
          destruct (inv_queue _ _ _ _ _ HI (f, c, curr)) as (g & Hgc & _).
          - rewrite Hperm. set_solver.
          - eauto. }
        assert (size (U ∖ ({[curr]} ∪ visited st)) < size (U ∖ visited st))%nat.
        { apply subset_size. set_solver. }
        simpl. lia.
Qed.

(** When the heap runs empty every cell within reach has been closed. *)
Lemma exhausted st :
  Inv' no_todo st → pq st = [] → ∀ n x, reach' n x → x ∈ visited st.
Proof.
  intros HI Hpq n x. induction 1 as [|n u v Hu IH Huv].
  - destruct (decide (start ∈ visited st)) as [?|Hs]; [done|].
    destruct (inv_open _ _ _ _ _ HI start 0 (inv_start _ _ _ _ _ HI) Hs) as [c Hc].
    rewrite Hpq in Hc. by apply elem_of_nil in Hc.
  - destruct (inv_expanded _ _ _ _ _ HI u v IH Huv) as [[]|(gu & gv & _ & Hgv & _)].
    destruct (decide (v ∈ visited st)) as [?|Hv]; [done|].
    destruct (inv_open _ _ _ _ _ HI v gv Hgv Hv) as [c Hc].
    rewrite Hpq in Hc. by apply elem_of_nil in Hc.
Qed.

Lemma astar_loop_spec fuel st :
  Inv' no_todo st → (measure U st < fuel)%nat →
  match AstarClaude.astar_loop grid goal cols fuel st with
  | Ret (Some path) => good_path grid start goal path
  | Ret None => ∀ n, ¬ reach' n goal
  | _ => False
  end.
Proof using Hrow0 Hrect.
  revert st. induction fuel as [|fuel IH]; intros st HI Hfuel; [lia|].
  simpl. pose proof (astar_step_spec st HI) as Hstep.
  destruct (AstarClaude.astar_step grid goal cols st) as [[st'|[path|]]| |];
    simpl; try done.
  - destruct Hstep as [HI' Hlt]. apply IH; [done|lia].
  - intros n Hn. apply (inv_goal _ _ _ _ _ HI). by eapply exhausted.
Qed.

Lemma measure_init :
  (measure U (AstarClaude.init_state start goal) < AstarClaude.search_fuel grid)%nat.
Proof using Hrow0.
  pose proof size_universe as Hsz. clear Hrect.
  unfold measure, AstarClaude.search_fuel. simpl.
  destruct grid as [|r0 tl]; [done|]. injection Hrow0 as ->.
  rewrite difference_empty_L. simpl in *. lia.
Qed.

Lemma astar_fuel_spec fuel :
  (AstarClaude.search_fuel grid ≤ fuel)%nat →
  match AstarClaude.astar_fuel grid start goal fuel with
  | Ret (Some path) => good_path grid start goal path
  | Ret None => ∀ n, ¬ reach' n goal
  | _ => False
  end.
Proof using Hrow0 Hrect.
  intros Hfuel. unfold AstarClaude.astar_fuel.
  rewrite (getitem_Some grid 0 row0) by done. simpl.
  apply astar_loop_spec; [apply Inv_init|]. pose proof measure_init. lia.
Qed.

End Loop.

(** More fuel never changes a result. *)
Lemma astar_loop_fuel_mono grid goal cols fuel fuel' st r :
  AstarClaude.astar_loop grid goal cols fuel st = Ret r → (fuel ≤ fuel')%nat →
  AstarClaude.astar_loop grid goal cols fuel' st = Ret r.
Proof.
  revert fuel' st. induction fuel as [|fuel IH]; intros fuel' st Hr Hle; [done|].
  destruct fuel' as [|fuel']; [lia|]. simpl in *.
  destruct (AstarClaude.astar_step grid goal cols st) as [[st'|res]| |];
    simpl in *; try done.
  apply IH; [done|lia].
Qed.

(** ** Walks of the search and routes of the specification *)

Lemma chain_edge_route grid l :
  (∀ x, head l = Some x → walkable grid x) →
  chain (edge grid) l → Forall (walkable grid) l ∧ chain adjacent l.
Proof.
  induction l as [|x l IH]; intros Hhd Hch; [by split|].
  destruct l as [|y l].
  - split; [|done]. constructor; [by apply Hhd|constructor].
  - destruct Hch as [[Hadj Hy] Hch]. destruct IH as [IH1 IH2]; [by intros ? [= <-]|done|].
    split; [constructor; [by apply Hhd|done]|by split].
Qed.

(** A walk of the search ends where it began or on a walkable cell. *)
Lemma chain_edge_last grid l t :
  chain (edge grid) l → last l = Some t → head l = Some t ∨ walkable grid t.
Proof.
  induction l as [|x l IH]; intros Hch Hlast; [done|].
  destruct l as [|y l]; [by left|].
  destruct Hch as [[_ Hy] Hch]. rewrite last_cons_cons in Hlast.
  destruct (IH Hch Hlast) as [[= <-]|?]; by right.
Qed.

Lemma route_reach grid s t l : route grid s t l → reach grid s (steps l) t.
Proof.
  intros (Hhd & Hlast & Hall & Hch).
  assert (∀ k x, reach grid s k x → head l = Some x → reach grid s (k + steps l) t)
    as Hgen.
  { clear Hhd. induction l as [|x l IH]; intros k x' Hk Hx; [done|].
    injection Hx as ->. destruct l as [|y l].
    - injection Hlast as ->. unfold steps, len. simpl. by rewrite Z.add_0_r.
    - destruct Hch as [Hadj Hch]. apply Forall_cons in Hall as [_ Hall].
      rewrite last_cons_cons in Hlast.
      replace (k + steps (x' :: y :: l)) with ((k + 1) + steps (y :: l))
        by (unfold steps, len; simpl length; lia).
      apply (IH Hlast Hall Hch (k + 1) y); [|done].
      econstructor; [done|]. split; [done|]. by apply Forall_cons in Hall as [? _]. }
  specialize (Hgen 0 s (reach_start _ _) Hhd). by rewrite Z.add_0_l in Hgen.
Qed.

Lemma good_path_route grid start goal path :
  walkable grid start → good_path grid start goal path → route grid start goal path.
Proof.
  intros Hs (Hhd & Hlast & Hch & _).
  destruct (chain_edge_route grid path) as [H1 H2]; [|done|by split_and!].
  intros x. rewrite Hhd. by intros [= <-].
Qed.

(** ** The function [astar] *)

Lemma in_bounds_row0 grid p : in_bounds grid p → ∃ row0, grid !! 0%nat = Some row0.
Proof.
  unfold in_bounds, cell_at. destruct grid as [|row0 tl]; [|by eexists].
  rewrite lookup_nil. destruct (_ && _); simpl; by intros [? ?].
Qed.

Lemma walkable_in_bounds grid p : walkable grid p → in_bounds grid p.
Proof. unfold walkable, in_bounds. intros ->. eauto. Qed.

Lemma astar_spec grid start goal row0 :
  grid !! 0%nat = Some row0 → rectangular grid →
  match AstarClaude.astar grid start goal with
  | Ret (Some path) => good_path grid start goal path
  | Ret None => ∀ n, ¬ reach grid start n goal
  | _ => False
  end.
Proof. intros Hrow0 Hrect. by apply (astar_fuel_spec grid start goal row0). Qed.

(** C3: on a rectangular grid with walkable [start] and [goal], a returned
    path begins at [start], ends at [goal], moves one unit along one axis at
    every step, and stays on walkable cells of the grid. *)
Theorem astar_path_valid grid start goal path :
  rectangular grid → walkable grid start → walkable grid goal →
  AstarClaude.astar grid start goal = Ret (Some path) →
  head path = Some start ∧ last path = Some goal
  ∧ chain adjacent path ∧ Forall (walkable grid) path.
Proof.
  intros Hrect Hs Hg Hres.
  destruct (in_bounds_row0 grid start (walkable_in_bounds _ _ Hs)) as [row0 Hrow0].
  pose proof (astar_spec grid start goal row0 Hrow0 Hrect) as Hspec.
  rewrite Hres in Hspec.
  destruct (good_path_route grid start goal path Hs Hspec) as (? & ? & ? & ?).
  done.
Qed.

(** C1: on a rectangular grid with walkable [start] and [goal], the number of
    steps of a returned path is the shortest 4-directional distance from
    [start] to [goal] through walkable cells. *)
Theorem astar_optimal grid start goal path :
  rectangular grid → walkable grid start → walkable grid goal →
  AstarClaude.astar grid start goal = Ret (Some path) →
  shortest_distance grid start goal (steps path).
Proof.
  intros Hrect Hs Hg Hres.
  destruct (in_bounds_row0 grid start (walkable_in_bounds _ _ Hs)) as [row0 Hrow0].
  pose proof (astar_spec grid start goal row0 Hrow0 Hrect) as Hspec.
  rewrite Hres in Hspec. split.
  - exists path. split; [|done]. by apply good_path_route.
  - intros l Hl. destruct Hspec as (_ & _ & _ & Hmin). by apply Hmin, route_reach.
Qed.

(** C2: on a rectangular grid with walkable [start] and [goal], [astar]
    returns a path exactly when a route through walkable cells exists; when
    none exists it returns [None]; it raises nothing. *)
Theorem astar_complete grid start goal :
  rectangular grid → walkable grid start → walkable grid goal →
  ((∃ path, AstarClaude.astar grid start goal = Ret (Some path))
   ↔ ∃ l, route grid start goal l)
  ∧ ((¬ ∃ l, route grid start goal l) → AstarClaude.astar grid start goal = Ret None)
  ∧ ∀ e, AstarClaude.astar grid start goal ≠ Raise e.
Proof.
  intros Hrect Hs Hg.
  destruct (in_bounds_row0 grid start (walkable_in_bounds _ _ Hs)) as [row0 Hrow0].
  pose proof (astar_spec grid start goal row0 Hrow0 Hrect) as Hspec.
  destruct (AstarClaude.astar grid start goal) as [[path|]| |]; try done.
  - pose proof (good_path_route grid start goal path Hs Hspec) as Hroute.
    split_and!; [split; eauto|intros []; eauto|done].
  - assert (¬ ∃ l, route grid start goal l) as Hno.
    { intros [l Hl]. by apply (Hspec (steps l)), route_reach. }
    split_and!; [|done..]. split; [by intros [? ?]|done].
Qed.

(** C8: on a rectangular grid, for a walkable [p], the search from [p] to [p]
    returns exactly the one-element path [[p]]. *)
Theorem astar_start_is_goal grid p :
  rectangular grid → walkable grid p →
  AstarClaude.astar grid p p = Ret (Some [p]).
Proof.
  intros _ Hp.
  destruct (in_bounds_row0 grid p (walkable_in_bounds _ _ Hp)) as [row0 Hrow0].
  unfold AstarClaude.astar, AstarClaude.astar_fuel, AstarClaude.search_fuel.
  rewrite (getitem_Some grid 0 row0) by done.
  destruct grid as [|r0 tl]; [done|].
  rewrite Nat.add_comm. simpl.
  unfold AstarClaude.astar_step. simpl.
  rewrite decide_True by done.
  by rewrite map_size_empty, lookup_empty.
Qed.

(** C9: on a rectangular grid with at least one row and one column, for all
    [start] and [goal], the search ends with a value (a path or [None]): the
    fuel handed out by [astar] is never used up, and more fuel gives the same
    value. *)
Theorem astar_terminates grid start goal :
  rectangular grid → 1 ≤ grid_rows grid → 1 ≤ grid_cols grid →
  ∃ res, AstarClaude.astar grid start goal = Ret res
         ∧ ∀ fuel, (AstarClaude.search_fuel grid ≤ fuel)%nat →
                   AstarClaude.astar_fuel grid start goal fuel = Ret res.
Proof.
  intros Hrect Hrows _.
  assert (∃ row0, grid !! 0%nat = Some row0) as [row0 Hrow0].
  { destruct grid; [unfold grid_rows, len in Hrows; simpl in Hrows; lia|by eexists]. }
  pose proof (astar_spec grid start goal row0 Hrow0 Hrect) as Hspec.
  destruct (AstarClaude.astar grid start goal) as [res| |] eqn:Hres; try done.
  exists res. split; [done|]. intros fuel Hfuel.
  unfold AstarClaude.astar, AstarClaude.astar_fuel in *.
  rewrite (getitem_Some grid 0 row0) in * by done. simpl in *.
  by eapply astar_loop_fuel_mono.
Qed.

(** C4, as the code has it: on a rectangular grid with at least one row, a
    [goal] that is out of bounds or on a blocked cell, and different from
    [start], makes [astar] return [None].  Nothing is asked of [start]. *)
Theorem astar_bad_goal grid start goal :
  rectangular grid → 1 ≤ grid_rows grid →
  ¬ in_bounds grid goal ∨ blocked grid goal → start ≠ goal →
  AstarClaude.astar grid start goal = Ret None.
Proof.
  intros Hrect Hrows Hbad Hne.
  assert (∃ row0, grid !! 0%nat = Some row0) as [row0 Hrow0].
  { destruct grid; [unfold grid_rows, len in Hrows; simpl in Hrows; lia|by eexists]. }
  assert (¬ walkable grid goal) as Hnw.
  { intros Hw. destruct Hbad as [Hob|(v & Hv & Hv0)].
    - by apply Hob, walkable_in_bounds.
    - unfold walkable in Hw. congruence. }
  pose proof (astar_spec grid start goal row0 Hrow0 Hrect) as Hspec.
  destruct (AstarClaude.astar grid start goal) as [[path|]| |]; try done.
  destruct Hspec as (Hhd & Hlast & Hch & _). exfalso.
  destruct (chain_edge_last grid path goal Hch Hlast) as [Hh|Hw]; [|done].
  congruence.
Qed.

(** ** Sequence numbers and the order of pops *)

Lemma remove_first_subseteq (e x : entry) l : x ∈ remove_first e l → x ∈ l.
Proof.
  induction l as [|y l IH]; simpl; [done|].
  destruct (decide (y = e)); set_solver.
Qed.

Lemma remove_first_sorted (e : entry) l :
  StronglySorted Z.lt (entry_counter <$> l) →
  StronglySorted Z.lt (entry_counter <$> remove_first e l).
Proof.
  induction l as [|y l IH]; simpl; [done|].
  intros [Hall Hs]%StronglySorted_cons.
  destruct (decide (y = e)); [done|].
  rewrite fmap_cons. apply StronglySorted_cons. split; [|by apply IH].
  rewrite Forall_forall in Hall |- *. intros c [x [-> Hx]]%list_elem_of_fmap.
  apply Hall, list_elem_of_fmap. exists x. split; [done|].
  by eapply remove_first_subseteq.
Qed.

Lemma sorted_lt_NoDup (l : list Z) : StronglySorted Z.lt l → NoDup l.
Proof.
  induction l as [|x l IH]; [constructor|].
  intros [Hall Hs]%StronglySorted_cons. constructor; [|by apply IH].
  intros Hx. rewrite Forall_forall in Hall. specialize (Hall x Hx). lia.
Qed.

Lemma heappop_rest l m rest : heappop l = Some (m, rest) → rest = remove_first m l.
Proof. destruct l; [done|]. unfold heappop. by intros [= <- <-]. Qed.

Lemma counters_ok_init start goal : counters_ok (AstarClaude.init_state start goal).
Proof.
  split_and!; simpl.
  - repeat constructor.
  - lia.
  - intros e ->%list_elem_of_singleton. unfold entry_counter. simpl. lia.
Qed.

(** A push takes the current sequence number and moves the counter on. *)
Lemma relax_counters goal curr nb st st' :
  AstarClaude.relax goal curr nb st = Ret st' →
  st' = st
  ∨ ∃ f, pq st' = pq st ++ [(f, counter st, nb)] ∧ counter st' = counter st + 1.
Proof.
  unfold AstarClaude.relax, dict_get.
  destruct (g_score st !! curr) as [gc|]; [simpl|done].
  destruct (match g_score st !! nb with Some g => gc + 1 <? g | None => true end).
  - intros [= <-]. right. eexists. simpl. by split.
  - intros [= <-]. by left.
Qed.

Lemma relax_counters_ok goal curr nb st st' :
  counters_ok st → AstarClaude.relax goal curr nb st = Ret st' → counters_ok st'.
Proof.
  intros (Hs & H0 & Hb) [->|(f & Hpq & Hc)]%relax_counters; [done|].
  unfold counters_ok. rewrite Hpq, Hc. split_and!.
  - rewrite fmap_app. apply StronglySorted_app. split_and!; [|done|repeat constructor].
    intros c1 c2 [e [-> He]]%list_elem_of_fmap Hc2.
    apply list_elem_of_singleton in Hc2 as ->. unfold entry_counter at 2. simpl.
    apply Hb, He.
  - lia.
  - intros e [He| ->%list_elem_of_singleton]%elem_of_app.
    + specialize (Hb e He). lia.
    + unfold entry_counter. simpl. lia.
Qed.

Lemma foldM_relax_counters_ok goal curr nbs st st' :
  counters_ok st → foldM (AstarClaude.relax goal curr) nbs st = Ret st' →
  counters_ok st'.
Proof.
  revert st. induction nbs as [|nb nbs IH]; intros st Hok; simpl.
  - by intros [= <-].
  - destruct (AstarClaude.relax goal curr nb st) as [st1| |] eqn:E; [simpl|done..].
    apply IH. by eapply relax_counters_ok.
Qed.

Lemma pop_counters_ok st m rest vis :
  counters_ok st → heappop (pq st) = Some (m, rest) →
  counters_ok {| pq := rest; counter := counter st; came_from := came_from st;
                 g_score := g_score st; visited := vis |}.
Proof.
  intros (Hs & H0 & Hb) ->%heappop_rest. split_and!; simpl; [|done|].
  - by apply remove_first_sorted.
  - intros e He%remove_first_subseteq. by apply Hb.
Qed.

Lemma step_counters_ok grid goal cols st st' :
  counters_ok st → AstarClaude.astar_step grid goal cols st = Ret (Next st') →
  counters_ok st'.
Proof.
  intros Hok. unfold AstarClaude.astar_step.
  destruct (heappop (pq st)) as [[[[f c] curr] rest]|] eqn:Hpop; [|done].
  destruct (decide (curr = goal)).
  { destruct (AstarClaude.reconstruct _ _ _ _); done. }
  destruct (decide (curr ∈ visited st)).
  - intros [= <-]. by eapply pop_counters_ok.
  - destruct (AstarClaude.neighbors grid cols curr) as [nbs| |]; [simpl|done..].
    destruct (foldM _ nbs _) as [st2| |] eqn:Hfold; [simpl|done..].
    intros [= <-]. eapply foldM_relax_counters_ok; [|exact Hfold].
    by eapply pop_counters_ok.
Qed.

Lemma reachable_counters_ok grid start goal cols st :
  reachable grid start goal cols st → counters_ok st.
Proof.
  induction 1 as [|st st' _ IH Hstep].
  - apply counters_ok_init.
  - by eapply step_counters_ok.
Qed.

(** C7: in every state of the search the heap hands back the entry that is
    least on [(f, counter)], so among equal [f] values the earliest push wins;
    the sequence numbers on the heap grow with the order of insertion, the
    first is zero, and every push takes the current counter and adds one. *)
Theorem pops_by_f_then_insertion grid start goal cols st :
  reachable grid start goal cols st →
  (∀ e rest, heappop (pq st) = Some (e, rest) →
     ∀ e', e' ∈ rest →
       entry_f e < entry_f e'
       ∨ (entry_f e = entry_f e' ∧ entry_counter e < entry_counter e'))
  ∧ StronglySorted Z.lt (entry_counter <$> pq st)
  ∧ (∀ e, e ∈ pq st → 0 ≤ entry_counter e < counter st)
  ∧ (∀ s curr nb s', AstarClaude.relax goal curr nb s = Ret s' →
       s' = s
       ∨ ∃ f, pq s' = pq s ++ [(f, counter s, nb)]
              ∧ counter s' = counter s + 1)
  ∧ entry_counter <$> pq (AstarClaude.init_state start goal) = [0].
Proof.
  intros (Hs & H0 & Hb)%reachable_counters_ok. split_and!; [|done|done| |done].
  - intros e rest Hpop e' He'.
    destruct (heappop_Some _ _ _ Hpop) as [Hperm Hmin].
    assert (entry_le e e') as Hle by (apply Hmin; rewrite Hperm; set_solver).
    assert (entry_counter e ≠ entry_counter e') as Hne.
    { apply sorted_lt_NoDup in Hs. rewrite Hperm, fmap_cons in Hs.
      apply NoDup_cons in Hs as [Hnotin _]. intros Heq. apply Hnotin.
      rewrite Heq. apply list_elem_of_fmap. eauto. }
    clear -Hle Hne. entry_order.
  - intros s curr nb s'. apply relax_counters.
Qed.

(** ** The outcome does not depend on how the heap is arranged *)

#[local] Instance same_heap_equiv : Equivalence same_heap.
Proof.
  split.
  - by intros st.
  - intros a b (? & ? & ? & ? & ?). by split_and!.
  - intros a b c (? & ? & ? & ? & ?) (? & ? & ? & ? & ?).
    split_and!; by etrans.
Qed.

(** Tuples are totally ordered, so the smallest entry of a heap is one
    value, whatever the layout. *)
Lemma heappop_perm l l' e rest :
  l ≡ₚ l' → heappop l = Some (e, rest) →
  ∃ rest', heappop l' = Some (e, rest') ∧ rest ≡ₚ rest'.
Proof.
  intros Hperm Hpop. destruct (heappop l') as [[e' rest']|] eqn:Hpop'.
  - destruct (heappop_Some _ _ _ Hpop) as [Hp Hmin].
    destruct (heappop_Some _ _ _ Hpop') as [Hp' Hmin'].
    assert (e = e') as <-.
    { apply entry_le_antisym.
      - apply Hmin. rewrite Hperm, Hp'. set_solver.
      - apply Hmin'. rewrite <- Hperm, Hp. set_solver. }
    exists rest'. split; [done|].
    apply (Permutation_cons_inv (a := e)). by rewrite <- Hp, <- Hp'.
  - apply heappop_None in Hpop' as ->. apply Permutation_nil_r in Hperm as ->. done.
Qed.

Lemma relax_same_heap goal curr nb a b :
  same_heap a b →
  result_rel same_heap (AstarClaude.relax goal curr nb a)
                       (AstarClaude.relax goal curr nb b).
Proof.
  intros (Hpq & Hc & Hcf & Hg & Hv). unfold AstarClaude.relax, dict_get.
  rewrite <- Hg, <- Hc, <- Hcf, <- Hv.
  destruct (g_score a !! curr) as [gc|]; [simpl|done].
  destruct (match g_score a !! nb with Some g => gc + 1 <? g | None => true end);
    simpl; [|by split_and!].
  split_and!; simpl; try done. unfold heappush. by rewrite Hpq.
Qed.

Lemma foldM_relax_same_heap goal curr nbs a b :
  same_heap a b →
  result_rel same_heap (foldM (AstarClaude.relax goal curr) nbs a)
                       (foldM (AstarClaude.relax goal curr) nbs b).
Proof.
  revert a b. induction nbs as [|nb nbs IH]; intros a b Hab; simpl; [done|].
  pose proof (relax_same_heap goal curr nb a b Hab) as Hr.
  destruct (AstarClaude.relax goal curr nb a), (AstarClaude.relax goal curr nb b);
    simpl in *; try done.
  by apply IH.
Qed.

Lemma step_same_heap grid goal cols a b :
  same_heap a b →
  result_rel step_out_rel (AstarClaude.astar_step grid goal cols a)
                          (AstarClaude.astar_step grid goal cols b).
Proof.
  intros (Hpq & Hc & Hcf & Hg & Hv). unfold AstarClaude.astar_step.
  destruct (heappop (pq a)) as [[[[f c] curr] rest]|] eqn:Hpop.
  - destruct (heappop_perm _ _ _ _ Hpq Hpop) as (rest' & -> & Hrest).
    rewrite <- Hcf, <- Hv, <- Hc, <- Hg.
    destruct (decide (curr = goal)).
    { destruct (AstarClaude.reconstruct _ _ _ _); done. }
    destruct (decide (curr ∈ visited a)); [by split_and!|].
    destruct (AstarClaude.neighbors grid cols curr) as [nbs| |]; [simpl|done..].
    match goal with
    | |- result_rel _ (?x ≫= _) (?y ≫= _) =>
        assert (result_rel same_heap x y) as Hfold
          by (apply foldM_relax_same_heap; by split_and!);
        destruct x, y; simpl in *; done
    end.
  - apply heappop_None in Hpop. rewrite Hpop in Hpq.
    apply Permutation_nil_l in Hpq. by rewrite <- Hpq.
Qed.

Lemma run_deterministic grid goal cols st st2 r1 r2 :
  run grid goal cols st r1 → same_heap st st2 → run grid goal cols st2 r2 → r1 = r2.
Proof.
  intros Hrun. revert st2 r2.
  induction Hrun as [st st1 res Hs1 Hstep1|st st1 st' res Hs1 Hstep1 Hrun IH];
    intros st2 r2 Hs2 Hrun2.
  - destruct Hrun2 as [st2 st3 res2 Hs3 Hstep3|st2 st3 st'' res2 Hs3 Hstep3 _].
    all: assert (same_heap st1 st3) as H13 by (by rewrite <- Hs1, Hs2, Hs3).
    all: pose proof (step_same_heap grid goal cols st1 st3 H13) as Hrel.
    all: rewrite Hstep1, Hstep3 in Hrel; simpl in Hrel; done.
  - destruct Hrun2 as [st2 st3 res2 Hs3 Hstep3|st2 st3 st'' res2 Hs3 Hstep3 Hrun2].
    all: assert (same_heap st1 st3) as H13 by (by rewrite <- Hs1, Hs2, Hs3).
    all: pose proof (step_same_heap grid goal cols st1 st3 H13) as Hrel.
    all: rewrite Hstep1, Hstep3 in Hrel; simpl in Hrel; try done.
    by eapply IH.
Qed.

(** The function [astar] is one of the runs. *)
Lemma astar_loop_run grid goal cols fuel st res :
  AstarClaude.astar_loop grid goal cols fuel st = Ret res → run grid goal cols st res.
Proof.
  revert st. induction fuel as [|fuel IH]; intros st; simpl; [done|].
  destruct (AstarClaude.astar_step grid goal cols st) as [[st'|r]| |] eqn:Hstep;
    simpl; try done.
  - intros Hres. eapply run_next; [reflexivity|exact Hstep|by apply IH].
  - intros [= <-]. eapply run_done; [reflexivity|exact Hstep].
Qed.

Lemma astar_returns_astar grid start goal res :
  AstarClaude.astar grid start goal = Ret res → astar_returns grid start goal res.
Proof.
  unfold AstarClaude.astar, AstarClaude.astar_fuel, astar_returns.
  destruct (getitem grid 0) as [row0| |]; simpl; [|done..].
  intros Hres. exists row0. split; [done|]. by eapply astar_loop_run.
Qed.

(** On a rectangular grid every run, whatever its heap layouts, returns what
    the function [astar] returns. *)
Lemma astar_returns_iff grid start goal row0 res :
  grid !! 0%nat = Some row0 → rectangular grid →
  astar_returns grid start goal res ↔ AstarClaude.astar grid start goal = Ret res.
Proof.
  intros Hrow0 Hrect. split; [|apply astar_returns_astar].
  intros (row1 & Hrow1 & Hrun).
  pose proof (astar_spec grid start goal row0 Hrow0 Hrect) as Hspec.
  destruct (AstarClaude.astar grid start goal) as [res'| |] eqn:Hres; try done.
  apply astar_returns_astar in Hres as (row2 & Hrow2 & Hrun').
  f_equal. assert (row1 = row2) as <- by congruence.
  symmetry. by eapply run_deterministic.
Qed.

(** C6: two invocations of [astar] on the same grid, start and goal return
    the same thing, path for path or [None] both times, whatever layout the
    heap takes in each. *)
Theorem astar_deterministic grid start goal r1 r2 :
  astar_returns grid start goal r1 → astar_returns grid start goal r2 → r1 = r2.
Proof.
  intros (row1 & Hrow1 & Hrun1) (row2 & Hrow2 & Hrun2).
  assert (row1 = row2) as <- by congruence.
  by eapply run_deterministic.
Qed.

(** ** The two copies of [astar] *)

(** C10: [astar] of [astarclaude.py] and [astar] of [interactive.py] return
    the same result on every grid, start and goal. *)
Theorem astar_same_in_both_files grid start goal :
  AstarClaude.astar grid start goal = Interactive.astar grid start goal.
Proof.
  unfold AstarClaude.astar, Interactive.astar.
  unfold AstarClaude.astar_fuel, Interactive.astar_fuel.
  reflexivity.
Qed.

(** ** Examples *)

Lemma rectangular_Forall (n : nat) grid :
  Forall (λ row, length row = n) grid → rectangular grid.
Proof.
  rewrite Forall_forall. intros Hall r1 r2 H1 H2.
  by rewrite (Hall r1 H1), (Hall r2 H2).
Qed.

Lemma example_grid_rectangular : rectangular example_grid.
Proof. apply (rectangular_Forall 5). repeat constructor. Qed.

Example example_obstacles :
  obstacles example_grid = [(1, 1); (1, 2); (2, 4); (3, 1); (3, 3)].
Proof. reflexivity. Qed.

Example astar_corner_to_corner :
  AstarClaude.astar example_grid (0, 0) (4, 4)
  = Ret (Some [(0, 0); (1, 0); (2, 0); (3, 0); (4, 0); (4, 1); (4, 2); (4, 3); (4, 4)]).
Proof. vm_compute. reflexivity. Qed.

(** A start outside the grid is expanded like any other cell. *)
Example astar_outside_start :
  AstarClaude.astar [[0]] (-1, 0) (0, 0) = Ret (Some [(-1, 0); (0, 0)]).
Proof. vm_compute. reflexivity. Qed.

(** A blocked cell that is both start and goal is returned as a path. *)
Example astar_blocked_start_is_goal :
  AstarClaude.astar [[1]] (0, 0) (0, 0) = Ret (Some [(0, 0)]).
Proof. vm_compute. reflexivity. Qed.

(** A wall between start and goal: no path. *)
Example astar_wall :
  AstarClaude.astar [[0; 1; 0]; [0; 1; 0]] (0, 0) (0, 2) = Ret None.
Proof. vm_compute. reflexivity. Qed.

(** A row shorter than the first one makes [grid[nr][nc]] raise. *)
Example astar_ragged_grid :
  AstarClaude.astar [[0; 0]; [0]] (0, 1) (5, 5) = Raise IndexError.
Proof. vm_compute. reflexivity. Qed.

(** Without a first row [len(grid[0])] raises. *)
Example astar_empty_grid : AstarClaude.astar [] (0, 0) (0, 0) = Raise IndexError.
Proof. reflexivity. Qed.

(** C4, as stated, fails: the start cell of this grid is blocked and the
    search still returns a path. *)
Lemma blocked_start_finds_path :
  rectangular [[1; 0]] ∧ blocked [[1; 0]] (0, 0)
  ∧ AstarClaude.astar [[1; 0]] (0, 0) (0, 1) = Ret (Some [(0, 0); (0, 1)])
  ∧ AstarClaude.astar [[1; 0]] (0, 0) (0, 1) ≠ Ret None.
Proof.
  split_and!.
  - apply (rectangular_Forall 2). repeat constructor.
  - exists 1. by split.
  - vm_compute. reflexivity.
  - vm_compute. discriminate.
Qed.

(** C5, as stated, fails: on the example grid no path of six steps, and no
    path at all, comes back for the goal [(3, 3)]. *)
Lemma example_returns_no_path :
  ¬ ∃ path, AstarClaude.astar example_grid (0, 0) (3, 3) = Ret (Some path)
            ∧ steps path = 6.
Proof. intros (path & H & _). vm_compute in H. discriminate. Qed.

(** C5, as the code has it: the obstacles of the example grid are
    [(1,1)], [(1,2)], [(2,4)], [(3,1)] and [(3,3)]; the goal [(3,3)] is one of
    them, no route leads to it, and [astar] returns [None]. *)
Theorem example_goal_is_obstacle :
  obstacles example_grid = [(1, 1); (1, 2); (2, 4); (3, 1); (3, 3)]
  ∧ blocked example_grid (3, 3)
  ∧ (¬ ∃ l, route example_grid (0, 0) (3, 3) l)
  ∧ AstarClaude.astar example_grid (0, 0) (3, 3) = Ret None.
Proof.
  split_and!.
  - reflexivity.
  - exists 1. by split.
  - intros (l & _ & Hlast & Hall & _).
    apply last_Some_elem_of in Hlast. rewrite Forall_forall in Hall.
    specialize (Hall _ Hlast). by vm_compute in Hall.
  - vm_compute. reflexivity.
Qed.

(** ** The theorems at work on the example grid *)

Lemma astar_path_valid_witness :
  let path := [(0, 0); (1, 0); (2, 0); (3, 0); (4, 0); (4, 1); (4, 2); (4, 3); (4, 4)] in
  head path = Some (0, 0) ∧ last path = Some (4, 4)
  ∧ chain adjacent path ∧ Forall (walkable example_grid) path.
Proof.
  apply (astar_path_valid example_grid (0, 0) (4, 4)).
  - apply (rectangular_Forall 5). repeat constructor.
  - reflexivity.
  - reflexivity.
  - vm_compute. reflexivity.
Defined.

Lemma astar_optimal_witness : shortest_distance example_grid (0, 0) (4, 4) 8.
Proof.
  apply (astar_optimal example_grid (0, 0) (4, 4)
           [(0, 0); (1, 0); (2, 0); (3, 0); (4, 0); (4, 1); (4, 2); (4, 3); (4, 4)]).
  - apply (rectangular_Forall 5). repeat constructor.
  - reflexivity.
  - reflexivity.
  - vm_compute. reflexivity.
Defined.

Lemma astar_complete_witness :
  ((∃ path, AstarClaude.astar [[0; 0]; [1; 0]] (0, 0) (1, 1) = Ret (Some path))
   ↔ ∃ l, route [[0; 0]; [1; 0]] (0, 0) (1, 1) l)
  ∧ ((¬ ∃ l, route [[0; 0]; [1; 0]] (0, 0) (1, 1) l) →
     AstarClaude.astar [[0; 0]; [1; 0]] (0, 0) (1, 1) = Ret None)
  ∧ ∀ e, AstarClaude.astar [[0; 0]; [1; 0]] (0, 0) (1, 1) ≠ Raise e.
Proof.
  apply (astar_complete [[0; 0]; [1; 0]] (0, 0) (1, 1)).
  - apply (rectangular_Forall 2). repeat constructor.
  - reflexivity.
  - reflexivity.
Defined.

Lemma astar_start_is_goal_witness :
  AstarClaude.astar example_grid (2, 2) (2, 2) = Ret (Some [(2, 2)]).
Proof.
  apply (astar_start_is_goal example_grid (2, 2)).
  - apply (rectangular_Forall 5). repeat constructor.
  - reflexivity.
Defined.

Lemma astar_terminates_witness :
  ∃ res, AstarClaude.astar example_grid (0, 0) (3, 3) = Ret res
         ∧ ∀ fuel, (AstarClaude.search_fuel example_grid ≤ fuel)%nat →
                   AstarClaude.astar_fuel example_grid (0, 0) (3, 3) fuel = Ret res.
Proof.
  apply (astar_terminates example_grid (0, 0) (3, 3)).
  - apply (rectangular_Forall 5). repeat constructor.
  - vm_compute. discriminate.
  - vm_compute. discriminate.
Defined.

Lemma astar_bad_goal_witness :
  AstarClaude.astar example_grid (0, 0) (3, 3) = Ret None.
Proof.
  apply (astar_bad_goal example_grid (0, 0) (3, 3)).
  - apply (rectangular_Forall 5). repeat constructor.
  - vm_compute. discriminate.
  - right. exists 1. split; [reflexivity|discriminate].
  - discriminate.
Defined.

Lemma astar_deterministic_witness :
  Some [(0, 0); (0, 1); (1, 1)] = Some [(0, 0); (0, 1); (1, 1)] :> option (list coord).
Proof.
  apply (astar_deterministic [[0; 0]; [1; 0]] (0, 0) (1, 1)).
  - apply astar_returns_astar. vm_compute. reflexivity.
  - apply astar_returns_astar. vm_compute. reflexivity.
Defined.

Lemma pops_by_f_then_insertion_witness :
  let st := {| pq := [(8, 1, (1, 0)); (8, 2, (0, 1))];
               counter := 3;
               came_from := {[(1, 0) := (0, 0); (0, 1) := (0, 0)]};
               g_score := {[(0, 0) := 0; (1, 0) := 1; (0, 1) := 1]};
               visited := {[(0, 0)]} |} in
  (∀ e rest, heappop (pq st) = Some (e, rest) →
     ∀ e', e' ∈ rest →
       entry_f e < entry_f e'
       ∨ (entry_f e = entry_f e' ∧ entry_counter e < entry_counter e'))
  ∧ StronglySorted Z.lt (entry_counter <$> pq st)
  ∧ (∀ e, e ∈ pq st → 0 ≤ entry_counter e < counter st)
  ∧ (∀ s curr nb s', AstarClaude.relax (4, 4) curr nb s = Ret s' →
       s' = s
       ∨ ∃ f, pq s' = pq s ++ [(f, counter s, nb)]
              ∧ counter s' = counter s + 1)
  ∧ entry_counter <$> pq (AstarClaude.init_state (0, 0) (4, 4)) = [0].
Proof.
  apply (pops_by_f_then_insertion example_grid (0, 0) (4, 4) 5).
  eapply reachable_step; [apply reachable_init|].
  vm_compute. reflexivity.
Defined.

(** ** More on [astar]: what the search does beyond its contract *)

Lemma chain_edge_iff grid l :
  chain (edge grid) l ↔ chain adjacent l ∧ Forall (walkable grid) (tail l).
Proof.
  induction l as [|x l IH]; [by split|].
  destruct l as [|y l]; [by split|].
  change (edge grid x y ∧ chain (edge grid) (y :: l)
          ↔ (adjacent x y ∧ chain adjacent (y :: l))
            ∧ Forall (walkable grid) (y :: l)).
  rewrite IH, Forall_cons. unfold edge. simpl. tauto.
Qed.

Lemma chain_reach grid s t l k x :
  reach grid s k x → head l = Some x → last l = Some t →
  chain (edge grid) l → reach grid s (k + steps l) t.
Proof.
  revert k x. induction l as [|y l IH]; intros k x Hk Hx Hlast Hch; [done|].
  injection Hx as ->. destruct l as [|z l].
  - injection Hlast as ->. unfold steps, len. simpl. by rewrite Z.add_0_r.
  - destruct Hch as [Hxz Hch]. rewrite last_cons_cons in Hlast.
    replace (k + steps (x :: z :: l)) with ((k + 1) + steps (z :: l))
      by (unfold steps, len; simpl length; lia).
    apply (IH (k + 1) z); [|done..]. by econstructor.
Qed.

Lemma walk_reach grid s t l : walk grid s t l → reach grid s (steps l) t.
Proof.
  intros (Hhd & Hlast & Hadj & Hall).
  rewrite <- (Z.add_0_l (steps l)).
  eapply chain_reach; [constructor|done..|]. by apply chain_edge_iff.
Qed.

Lemma good_path_walk grid start goal path :
  good_path grid start goal path → walk grid start goal path.
Proof.
  intros (Hhd & Hlast & Hch & _). apply chain_edge_iff in Hch as [? ?].
  by split_and!.
Qed.

Lemma first_row grid : 1 ≤ grid_rows grid → ∃ row0, grid !! 0%nat = Some row0.
Proof.
  destruct grid; [unfold grid_rows, len; simpl; lia|by eexists].
Qed.

(** X1: on a rectangular grid with at least one row, whatever [start] is
    (blocked, outside the grid), a returned path starts at [start], ends at
    [goal], moves between adjacent cells and is walkable from its second cell
    on; no such walk is shorter; [None] comes back exactly when there is no
    such walk. *)
Theorem astar_unchecked_start grid start goal :
  rectangular grid → 1 ≤ grid_rows grid →
  match AstarClaude.astar grid start goal with
  | Ret (Some path) =>
      walk grid start goal path
      ∧ ∀ l, walk grid start goal l → steps path ≤ steps l
  | Ret None => ¬ ∃ l, walk grid start goal l
  | _ => False
  end.
Proof.
  intros Hrect [row0 Hrow0]%first_row.
  pose proof (astar_spec grid start goal row0 Hrow0 Hrect) as Hspec.
  destruct (AstarClaude.astar grid start goal) as [[path|]| |]; try done.
  - split; [by apply good_path_walk|].
    intros l Hl. destruct Hspec as (_ & _ & _ & Hmin). by apply Hmin, walk_reach.
  - intros [l Hl]. by apply (Hspec (steps l)), walk_reach.
Qed.

Lemma astar_unchecked_start_witness :
  walk [[1; 0]] (0, 0) (0, 1) [(0, 0); (0, 1)]
  ∧ ∀ l, walk [[1; 0]] (0, 0) (0, 1) l → steps [(0, 0); (0, 1)] ≤ steps l.
Proof.
  apply (astar_unchecked_start [[1; 0]] (0, 0) (0, 1)).
  - apply (rectangular_Forall 2). repeat constructor.
  - vm_compute. discriminate.
Defined.

(** X2: as soon as the grid has a first row, [astar(grid, p, p)] is [[p]]
    for every [p]: blocked, outside the grid, on a ragged grid. *)
Theorem astar_same_cell_any grid p :
  1 ≤ grid_rows grid → AstarClaude.astar grid p p = Ret (Some [p]).
Proof.
  intros [row0 Hrow0]%first_row.
  unfold AstarClaude.astar, AstarClaude.astar_fuel, AstarClaude.search_fuel.
  rewrite (getitem_Some grid 0 row0) by done.
  destruct grid as [|r0 tl]; [done|].
  rewrite Nat.add_comm. simpl.
  unfold AstarClaude.astar_step. simpl.
  rewrite decide_True by done.
  by rewrite map_size_empty, lookup_empty.
Qed.

Lemma astar_same_cell_any_witness :
  AstarClaude.astar [[1; 1]; [1]] (7, -3) (7, -3) = Ret (Some [(7, -3)]).
Proof.
  apply (astar_same_cell_any [[1; 1]; [1]] (7, -3)). vm_compute. discriminate.
Defined.

Lemma chain_app (R : coord → coord → Prop) l1 x l2 :
  chain R (l1 ++ x :: l2) ↔ chain R (l1 ++ [x]) ∧ chain R (x :: l2).
Proof.
  induction l1 as [|y l1 IH]; [simpl; tauto|].
  destruct l1 as [|z l1]; [simpl; tauto|].
  change (R y z ∧ chain R ((z :: l1) ++ x :: l2)
          ↔ (R y z ∧ chain R ((z :: l1) ++ [x])) ∧ chain R (x :: l2)).
  rewrite IH. tauto.
Qed.

(** Every cell of a returned path sits at its distance from [start]. *)
Lemma path_prefix_optimal grid start goal l1 x l2 :
  good_path grid start goal (l1 ++ x :: l2) →
  reach grid start (len l1) x ∧ ∀ n, reach grid start n x → len l1 ≤ n.
Proof.
  intros (Hhd & Hlast & [Hc1 Hc2]%chain_app & Hmin).
  rewrite last_app_cons in Hlast. split.
  - replace (len l1) with (0 + steps (l1 ++ [x]))
      by (unfold steps, len; rewrite length_app; simpl; lia).
    eapply chain_reach; [constructor| |apply last_snoc|done].
    by destruct l1.
  - intros n Hn.
    pose proof (chain_reach grid start goal (x :: l2) n x Hn eq_refl Hlast Hc2) as Hg.
    apply Hmin in Hg. unfold steps, len in *. rewrite length_app in Hg.
    simpl in Hg. lia.
Qed.

Lemma good_path_NoDup grid start goal path :
  good_path grid start goal path → NoDup path.
Proof.
  intros Hgood. apply NoDup_alt. intros i j x Hi Hj.
  assert (∀ k : nat, path !! k = Some x →
            reach grid start (Z.of_nat k) x
            ∧ ∀ n, reach grid start n x → Z.of_nat k ≤ n) as Hpos.
  { intros k Hk. pose proof (lookup_lt_Some _ _ _ Hk) as Hlt.
    rewrite <- (take_drop_middle path k x Hk) in Hgood.
    apply path_prefix_optimal in Hgood. unfold len in Hgood.
    rewrite length_take, Nat.min_l in Hgood by lia. done. }
  destruct (Hpos i Hi) as [Ri Mi], (Hpos j Hj) as [Rj Mj].
  specialize (Mi _ Rj). specialize (Mj _ Ri). lia.
Qed.

(** X3: a returned path never passes through the same cell twice. *)
Theorem astar_path_simple grid start goal path :
  rectangular grid → 1 ≤ grid_rows grid →
  AstarClaude.astar grid start goal = Ret (Some path) → NoDup path.
Proof.
  intros Hrect [row0 Hrow0]%first_row Hres.
  pose proof (astar_spec grid start goal row0 Hrow0 Hrect) as Hspec.
  rewrite Hres in Hspec. by eapply good_path_NoDup.
Qed.

Lemma astar_path_simple_witness :
  NoDup [(0, 0); (1, 0); (2, 0); (3, 0); (4, 0); (4, 1); (4, 2); (4, 3); (4, 4)].
Proof.
  apply (astar_path_simple example_grid (0, 0) (4, 4)).
  - apply (rectangular_Forall 5). repeat constructor.
  - vm_compute. discriminate.
  - vm_compute. reflexivity.
Defined.

Lemma reach_lower grid start n x : reach grid start n x → AstarClaude.h start x ≤ n.
Proof.
  induction 1 as [|n u v Hu IH [Hadj _]].
  - unfold AstarClaude.h. lia.
  - pose proof (h_consistent start v u (adjacent_sym _ _ Hadj)). lia.
Qed.

(** X4: a returned path has at least as many steps as the Manhattan distance
    between [start] and [goal], the heuristic's estimate at [start]. *)
Theorem astar_steps_at_least_manhattan grid start goal path :
  rectangular grid → 1 ≤ grid_rows grid →
  AstarClaude.astar grid start goal = Ret (Some path) →
  AstarClaude.h goal start ≤ steps path.
Proof.
  intros Hrect [row0 Hrow0]%first_row Hres.
  pose proof (astar_spec grid start goal row0 Hrow0 Hrect) as Hspec.
  rewrite Hres in Hspec. apply good_path_walk, walk_reach, reach_lower in Hspec.
  unfold AstarClaude.h in *. lia.
Qed.

Lemma astar_steps_at_least_manhattan_witness :
  AstarClaude.h (2, 0) (0, 0) ≤ steps [(0, 0); (0, 1); (1, 1); (2, 1); (2, 0)].
Proof.
  apply (astar_steps_at_least_manhattan [[0; 0]; [1; 0]; [0; 0]] (0, 0) (2, 0)).
  - apply (rectangular_Forall 2). repeat constructor.
  - vm_compute. discriminate.
  - vm_compute. reflexivity.
Defined.

Lemma in_bounds_iff grid row0 p :
  grid !! 0%nat = Some row0 → rectangular grid →
  in_bounds grid p ↔ (0 ≤ p.1 < len grid ∧ 0 ≤ p.2 < len row0).
Proof.
  intros Hrow0 Hrect. unfold in_bounds, cell_at, len. split.
  - destruct (0 <=? p.1) eqn:E1; [|by intros [? ?]].
    destruct (0 <=? p.2) eqn:E2; [|by intros [? ?]]. simpl.
    destruct (grid !! Z.to_nat p.1) as [row|] eqn:Hrow; [|by intros [? ?]].
    simpl. intros [v Hv]. apply lookup_lt_Some in Hv.
    rewrite (row_length grid row0 Hrow0 Hrect _ _ Hrow) in Hv.
    apply lookup_lt_Some in Hrow. lia.
  - intros [[? ?] [? ?]].
    destruct (0 <=? p.1) eqn:E1; [|lia]. destruct (0 <=? p.2) eqn:E2; [|lia].
    simpl. destruct (lookup_lt_is_Some_2 grid (Z.to_nat p.1)) as [row Hrow]; [lia|].
    rewrite Hrow. simpl. apply lookup_lt_is_Some_2.
    rewrite (row_length grid row0 Hrow0 Hrect _ _ Hrow). lia.
Qed.

Lemma free_walkable grid p :
  Forall (Forall (λ v, v = 0)) grid → in_bounds grid p → walkable grid p.
Proof.
  intros Hfree [v Hv]. unfold walkable. rewrite Hv. f_equal.
  unfold cell_at in Hv. destruct (_ && _); [|done].
  destruct (grid !! Z.to_nat p.1) as [row|] eqn:Hrow; [simpl in Hv|done].
  rewrite Forall_forall in Hfree.
  pose proof (Hfree row (list_elem_of_lookup_2 _ _ _ Hrow)) as Hr.
  rewrite Forall_forall in Hr. apply Hr. by eapply list_elem_of_lookup_2.
Qed.

(** Without obstacles every cell is reached in as many moves as its
    Manhattan distance from [start]. *)
Lemma free_reach grid row0 start (n : nat) t :
  grid !! 0%nat = Some row0 → rectangular grid →
  Forall (Forall (λ v, v = 0)) grid → in_bounds grid start →
  in_bounds grid t → AstarClaude.h start t = Z.of_nat n →
  reach grid start (Z.of_nat n) t.
Proof.
  intros Hrow0 Hrect Hfree Hs. revert t.
  apply (in_bounds_iff grid row0 start Hrow0 Hrect) in Hs.
  induction n as [|n IH]; intros t Ht Hn.
  - assert (t = start) as ->; [|constructor].
    destruct t, start. unfold AstarClaude.h in Hn. simpl in *. f_equal; lia.
  - pose proof (free_walkable grid t Hfree Ht) as Hw.
    apply (in_bounds_iff grid row0 t Hrow0 Hrect) in Ht.
    set (t' := if decide (start.1 < t.1) then (t.1 - 1, t.2)
               else if decide (t.1 < start.1) then (t.1 + 1, t.2)
               else if decide (start.2 < t.2) then (t.1, t.2 - 1)
               else (t.1, t.2 + 1)).
    assert (adjacent t' t ∧ AstarClaude.h start t' = Z.of_nat n
            ∧ (0 ≤ t'.1 < len grid ∧ 0 ≤ t'.2 < len row0)) as (Hadj & Hn' & Hb).
    { unfold AstarClaude.h, adjacent in *. subst t'.
      repeat case_decide; simpl; lia. }
    replace (Z.of_nat (S n)) with (Z.of_nat n + 1) by lia.
    eapply reach_step; [apply IH; [|done]|by split].
    by apply (in_bounds_iff grid row0 t' Hrow0 Hrect).
Qed.

(** X5: on a rectangular grid without obstacles, for [start] and [goal]
    inside the grid, [astar] returns a path of exactly as many steps as the
    Manhattan distance between them. *)
Theorem astar_free_grid grid start goal :
  rectangular grid → Forall (Forall (λ v, v = 0)) grid →
  in_bounds grid start → in_bounds grid goal →
  ∃ path, AstarClaude.astar grid start goal = Ret (Some path)
          ∧ steps path = AstarClaude.h goal start.
Proof.
  intros Hrect Hfree Hs Hg.
  destruct (in_bounds_row0 grid start Hs) as [row0 Hrow0].
  pose proof (astar_spec grid start goal row0 Hrow0 Hrect) as Hspec.
  assert (AstarClaude.h start goal = AstarClaude.h goal start) as Hsym
    by (unfold AstarClaude.h; lia).
  assert (reach grid start (AstarClaude.h start goal) goal) as Hreach.
  { rewrite <- (Z2Nat.id (AstarClaude.h start goal)) by (unfold AstarClaude.h; lia).
    eapply free_reach; try done. rewrite Z2Nat.id; [done|unfold AstarClaude.h; lia]. }
  destruct (AstarClaude.astar grid start goal) as [[path|]| |]; try done.
  - exists path. split; [done|].
    pose proof (reach_lower _ _ _ _ (walk_reach _ _ _ _ (good_path_walk _ _ _ _ Hspec))).
    destruct Hspec as (_ & _ & _ & Hmin). specialize (Hmin _ Hreach). lia.
  - by destruct (Hspec _ Hreach).
Qed.

Lemma astar_free_grid_witness :
  ∃ path, AstarClaude.astar [[0; 0; 0]; [0; 0; 0]] (1, 0) (0, 2) = Ret (Some path)
          ∧ steps path = AstarClaude.h (0, 2) (1, 0).
Proof.
  apply (astar_free_grid [[0; 0; 0]; [0; 0; 0]] (1, 0) (0, 2)).
  - apply (rectangular_Forall 3). repeat constructor.
  - repeat constructor.
  - vm_compute. eexists. reflexivity.
  - vm_compute. eexists. reflexivity.
Defined.

(** ** The search reads the grid through [valid] only *)

Lemma getitem_nonneg {A : Type} (l : list A) (i : Z) :
  0 ≤ i →
  getitem l i = match l !! Z.to_nat i with Some x => Ret x | None => Raise IndexError end.
Proof.
  intros Hi. unfold getitem. destruct (0 <=? i) eqn:E; [|lia]. by rewrite E.
Qed.

Lemma valid_unfold grid cols nr nc :
  AstarClaude.valid grid cols (nr, nc) =
  if (0 <=? nr) && (nr <? len grid) && ((0 <=? nc) && (nc <? cols)) then
    match grid !! Z.to_nat nr with
    | Some row =>
        match row !! Z.to_nat nc with
        | Some v => Ret (v =? 0)
        | None => Raise IndexError
        end
    | None => Raise IndexError
    end
  else Ret false.
Proof.
  unfold AstarClaude.valid, AstarClaude.rows.
  destruct (0 <=? nr) eqn:E1; [|done]. destruct (nr <? len grid); [|done].
  destruct (0 <=? nc) eqn:E2; [|done]. destruct (nc <? cols); [|done]. simpl.
  rewrite getitem_nonneg by lia. destruct (grid !! Z.to_nat nr) as [row|]; [|done].
  simpl. rewrite getitem_nonneg by lia. by destruct (row !! Z.to_nat nc).
Qed.

Lemma filterM_ext {A : Type} (p q : A → result bool) l :
  (∀ x, p x = q x) → filterM p l = filterM q l.
Proof. intros Hpq. induction l as [|x l IH]; [done|]. simpl. by rewrite Hpq, IH. Qed.

Lemma astar_loop_ext grid grid' goal cols fuel st :
  (∀ p, AstarClaude.valid grid cols p = AstarClaude.valid grid' cols p) →
  AstarClaude.astar_loop grid goal cols fuel st
  = AstarClaude.astar_loop grid' goal cols fuel st.
Proof.
  intros Hv. revert st. induction fuel as [|fuel IH]; intros st; [done|]. simpl.
  assert (AstarClaude.astar_step grid goal cols st
          = AstarClaude.astar_step grid' goal cols st) as ->.
  { unfold AstarClaude.astar_step.
    destruct (heappop (pq st)) as [[[[f c] [r k]] rest]|]; [|done].
    unfold AstarClaude.neighbors. by rewrite (filterM_ext _ _ _ Hv). }
  destruct (AstarClaude.astar_step grid' goal cols st) as [[st'|res]| |]; simpl; auto.
Qed.

Lemma astar_ext grid grid' row0 row0' start goal :
  length grid = length grid' →
  grid !! 0%nat = Some row0 → grid' !! 0%nat = Some row0' →
  length row0 = length row0' →
  (∀ p, AstarClaude.valid grid (len row0) p = AstarClaude.valid grid' (len row0) p) →
  AstarClaude.astar grid start goal = AstarClaude.astar grid' start goal.
Proof.
  intros Hlen Hrow0 Hrow0' Hlen0 Hv.
  unfold AstarClaude.astar, AstarClaude.astar_fuel.
  rewrite (getitem_Some grid 0 row0), (getitem_Some grid' 0 row0') by done. simpl.
  assert (AstarClaude.search_fuel grid = AstarClaude.search_fuel grid') as ->.
  { unfold AstarClaude.search_fuel. destruct grid, grid'; try done.
    simpl in *. injection Hrow0 as ->. injection Hrow0' as ->. lia. }
  unfold len. rewrite <- Hlen0. by apply astar_loop_ext.
Qed.

Lemma grid_cols_row0 grid row0 : grid !! 0%nat = Some row0 → grid_cols grid = len row0.
Proof. destruct grid; [done|]. by intros [= ->]. Qed.

Lemma astar_clip grid start goal :
  AstarClaude.astar grid start goal = AstarClaude.astar (clip grid) start goal.
Proof.
  destruct grid as [|row0 tl] eqn:Hgrid; [done|]. rewrite <- Hgrid.
  assert (grid !! 0%nat = Some row0) as Hrow0 by (by rewrite Hgrid).
  eapply (astar_ext grid (clip grid) row0 (take (length row0) row0)).
  - unfold clip. by rewrite length_fmap.
  - done.
  - unfold clip. rewrite list_lookup_fmap, Hrow0. simpl.
    rewrite (grid_cols_row0 _ _ Hrow0). unfold len. by rewrite Nat2Z.id.
  - rewrite length_take. lia.
  - intros [nr nc]. rewrite !valid_unfold. unfold clip, len.
    rewrite length_fmap, list_lookup_fmap.
    destruct (_ && _ && _) eqn:E; [|done].
    destruct (grid !! Z.to_nat nr) as [row|]; [simpl|done].
    rewrite (grid_cols_row0 _ _ Hrow0). unfold len. rewrite Nat2Z.id.
    rewrite lookup_take_lt; [done|].
    apply andb_prop in E as [_ [E0 E]%andb_prop].
    apply Z.leb_le in E0. apply Z.ltb_lt in E. unfold len in E. lia.
Qed.

(** X6: [astar] never reads a cell beyond the width of the first row: on
    every grid it returns what it returns on the grid cut to that width. *)
Theorem astar_reads_first_width grid start goal :
  AstarClaude.astar grid start goal = AstarClaude.astar (clip grid) start goal.
Proof. apply astar_clip. Qed.

Lemma clip_rectangular grid :
  Forall (λ row, grid_cols grid ≤ len row) grid → rectangular (clip grid).
Proof.
  intros Hwide. apply (rectangular_Forall (Z.to_nat (grid_cols grid))).
  unfold clip. rewrite Forall_fmap. eapply Forall_impl; [exact Hwide|].
  intros row Hrow. simpl. rewrite length_take. unfold len in Hrow. lia.
Qed.

(** X8: rows longer than the first one are harmless: when the grid has a
    first row and no row is shorter than it, [astar] ends with a value, a
    path or [None], for every start and goal. *)
Theorem astar_wide_rows grid start goal :
  1 ≤ grid_rows grid → Forall (λ row, grid_cols grid ≤ len row) grid →
  ∃ res, AstarClaude.astar grid start goal = Ret res.
Proof.
  intros [row0 Hrow0]%first_row Hwide. rewrite astar_clip.
  pose proof (astar_spec (clip grid) start goal (take (Z.to_nat (grid_cols grid)) row0))
    as Hspec.
  destruct (AstarClaude.astar (clip grid) start goal) as [res| |]; [by eexists|..].
  all: exfalso; apply Hspec; [|by apply clip_rectangular].
  all: unfold clip; by rewrite list_lookup_fmap, Hrow0.
Qed.

Lemma astar_wide_rows_witness :
  ∃ res, AstarClaude.astar [[0; 0]; [0; 0; 1; 1]; [0; 0; 0]] (0, 0) (2, 1) = Ret res.
Proof.
  apply (astar_wide_rows [[0; 0]; [0; 0; 1; 1]; [0; 0; 0]] (0, 0) (2, 1)).
  - vm_compute. discriminate.
  - repeat constructor; vm_compute; discriminate.
Defined.

(** X7: [astar] treats every nonzero cell as an obstacle: on every grid it
    returns what it returns once the nonzero cells are written as [1]. *)
Theorem astar_nonzero_blocks grid start goal :
  AstarClaude.astar grid start goal = AstarClaude.astar (binarize grid) start goal.
Proof.
  destruct grid as [|row0 tl] eqn:Hgrid; [done|]. rewrite <- Hgrid.
  assert (grid !! 0%nat = Some row0) as Hrow0 by (by rewrite Hgrid).
  eapply (astar_ext grid (binarize grid) row0).
  - unfold binarize. by rewrite length_fmap.
  - done.
  - unfold binarize. by rewrite list_lookup_fmap, Hrow0.
  - by rewrite length_fmap.
  - intros [nr nc]. rewrite !valid_unfold. unfold binarize, len.
    rewrite length_fmap, list_lookup_fmap.
    destruct (_ && _ && _); [|done].
    destruct (grid !! Z.to_nat nr) as [row|]; [simpl|done].
    rewrite list_lookup_fmap. destruct (row !! Z.to_nat nc) as [v|]; [simpl|done].
    by destruct (Z.eqb_spec v 0).
Qed.

(** ** The cell under [start] is never inspected *)

Lemma relax_start_noop goal curr start st gc :
  g_score st !! start = Some 0 → g_score st !! curr = Some gc → 0 ≤ gc →
  AstarClaude.relax goal curr start st = Ret st.
Proof.
  intros Hs Hc Hgc. unfold AstarClaude.relax, dict_get. rewrite Hc, Hs. simpl.
  destruct (Z.ltb_spec (gc + 1) 0); [lia|done].
Qed.

Lemma relax_keeps_start goal curr start nb st st' :
  g_score st !! start = Some 0 →
  (∃ gc, g_score st !! curr = Some gc ∧ 0 ≤ gc) →
  AstarClaude.relax goal curr nb st = Ret st' →
  g_score st' !! start = Some 0 ∧ ∃ gc, g_score st' !! curr = Some gc ∧ 0 ≤ gc.
Proof.
  intros Hs (gc & Hc & Hgc). unfold AstarClaude.relax, dict_get. rewrite Hc. simpl.
  destruct (g_score st !! nb) as [gnb|] eqn:Hnb.
  - destruct (Z.ltb_spec (gc + 1) gnb) as [Hlt|Hge]; intros [= <-]; [|by eauto].
    simpl. assert (nb ≠ start) by (intros ->; rewrite Hs in Hnb; injection Hnb; lia).
    rewrite lookup_insert_ne by done. split; [done|].
    destruct (decide (nb = curr)) as [->|?].
    + exists (gc + 1). rewrite lookup_insert_eq. split; [done|lia].
    + exists gc. by rewrite lookup_insert_ne.
  - intros [= <-]. simpl.
    assert (nb ≠ start) by (intros ->; by rewrite Hs in Hnb).
    assert (nb ≠ curr) by (intros ->; by rewrite Hc in Hnb).
    rewrite !lookup_insert_ne by done. eauto.
Qed.

Lemma foldM_relax_ignores_start goal curr start (P P' : coord → Prop)
    `{!∀ x, Decision (P x), !∀ x, Decision (P' x)} l st :
  (∀ x, x ≠ start → P x ↔ P' x) →
  g_score st !! start = Some 0 →
  (∃ gc, g_score st !! curr = Some gc ∧ 0 ≤ gc) →
  foldM (AstarClaude.relax goal curr) (filter P l) st
  = foldM (AstarClaude.relax goal curr) (filter P' l) st.
Proof.
  intros HP. revert st. induction l as [|x l IH]; intros st Hs Hc; [done|].
  rewrite !filter_cons. destruct (decide (x = start)) as [->|Hne].
  - destruct Hc as (gc & Hc & Hgc).
    pose proof (relax_start_noop goal curr start st gc Hs Hc Hgc) as Hnoop.
    destruct (decide (P start)), (decide (P' start)); simpl; rewrite ?Hnoop; simpl;
      apply IH; eauto.
  - destruct (decide (P x)) as [Hx|Hx], (decide (P' x)) as [Hx'|Hx'];
      try (by apply HP in Hx); try (by apply HP in Hx'); [|by apply IH].
    simpl. destruct (AstarClaude.relax goal curr x st) as [st'| |] eqn:Hr; [simpl|done..].
    destruct (relax_keeps_start goal curr start x st st' Hs Hc Hr). by apply IH.
Qed.

Section IgnoresStart.

Variables grid grid' : grid_t.
Variables start goal : coord.
Variables row0 row0' : list Z.
Hypothesis Hrow0 : grid !! 0%nat = Some row0.
Hypothesis Hrow0' : grid' !! 0%nat = Some row0'.
Hypothesis Hrect : rectangular grid.
Hypothesis Hrect' : rectangular grid'.
Hypothesis Hcols : length row0 = length row0'.
Hypothesis Hsame : ∀ p, p ≠ start → cell_at grid p = cell_at grid' p.

Lemma step_ignores_start st :
  Inv grid start goal no_todo st →
  AstarClaude.astar_step grid goal (len row0) st
  = AstarClaude.astar_step grid' goal (len row0) st.
Proof using All.
  intros HI. unfold AstarClaude.astar_step.
  destruct (heappop (pq st)) as [[[[f c] curr] rest]|] eqn:Hpop; [|done].
  destruct (decide (curr = goal)); [done|].
  destruct (decide (curr ∈ visited st)); [done|].
  rewrite (neighbors_filter grid row0 Hrow0 Hrect).
  replace (len row0) with (len row0') by (unfold len; lia).
  rewrite (neighbors_filter grid' row0' Hrow0' Hrect'). simpl.
  destruct (heappop_Some _ _ _ Hpop) as [Hperm _].
  destruct (inv_queue _ _ _ _ _ HI (f, c, curr)) as (gc & Hgc & _);
    [rewrite Hperm; set_solver|].
  erewrite (foldM_relax_ignores_start goal curr start
              (walkable grid) (walkable grid')); [done|..].
  - intros x Hx. unfold walkable. by rewrite (Hsame x Hx).
  - apply HI.
  - exists gc. split; [done|].
    eapply reach_nonneg, (inv_reach _ _ _ _ _ HI). exact Hgc.
Qed.

Lemma loop_ignores_start fuel st :
  Inv grid start goal no_todo st →
  AstarClaude.astar_loop grid goal (len row0) fuel st
  = AstarClaude.astar_loop grid' goal (len row0) fuel st.
Proof using All.
  revert st. induction fuel as [|fuel IH]; intros st HI; [done|]. simpl.
  pose proof (astar_step_spec grid start goal row0 Hrow0 Hrect st HI) as Hspec.
  rewrite <- (step_ignores_start st HI).
  destruct (AstarClaude.astar_step grid goal (len row0) st) as [[st'|res]| |];
    simpl; try done.
  apply IH, Hspec.
Qed.

End IgnoresStart.

(** X9: the result does not depend on what the grid holds at [start]: two
    rectangular grids of the same size that agree on every other cell give
    the same result. *)
Theorem astar_ignores_start_cell grid grid' start goal :
  rectangular grid → rectangular grid' →
  length grid = length grid' → grid_cols grid = grid_cols grid' →
  (∀ p, p ≠ start → cell_at grid p = cell_at grid' p) →
  AstarClaude.astar grid start goal = AstarClaude.astar grid' start goal.
Proof.
  intros Hrect Hrect' Hlen Hcols Hsame.
  destruct grid as [|row0 tl] eqn:Hg, grid' as [|row0' tl'] eqn:Hg'; try done.
  rewrite <- Hg, <- Hg' in *.
  assert (grid !! 0%nat = Some row0) as Hrow0 by (by rewrite Hg).
  assert (grid' !! 0%nat = Some row0') as Hrow0' by (by rewrite Hg').
  rewrite (grid_cols_row0 _ _ Hrow0), (grid_cols_row0 _ _ Hrow0') in Hcols.
  assert (length row0 = length row0') as Hl0 by (unfold len in Hcols; lia).
  unfold AstarClaude.astar, AstarClaude.astar_fuel.
  rewrite (getitem_Some grid 0 row0), (getitem_Some grid' 0 row0') by done. simpl.
  assert (AstarClaude.search_fuel grid = AstarClaude.search_fuel grid') as ->.
  { unfold AstarClaude.search_fuel. rewrite Hg, Hg'. rewrite Hg, Hg' in Hlen.
    simpl in *. lia. }
  rewrite <- Hcols.
  by apply (loop_ignores_start grid grid' start goal row0 row0'); [..|apply Inv_init].
Qed.

Lemma astar_ignores_start_cell_witness :
  AstarClaude.astar [[0; 0]; [1; 0]] (0, 0) (1, 1)
  = AstarClaude.astar [[1; 0]; [1; 0]] (0, 0) (1, 1).
Proof.
  apply (astar_ignores_start_cell [[0; 0]; [1; 0]] [[1; 0]; [1; 0]] (0, 0) (1, 1)).
  - apply (rectangular_Forall 2). repeat constructor.
  - apply (rectangular_Forall 2). repeat constructor.
  - reflexivity.
  - reflexivity.
  - intros [r c] Hne. unfold cell_at. simpl.
    destruct (0 <=? r) eqn:Er; [|done]. destruct (0 <=? c) eqn:Ec; [|done]. simpl.
    destruct (Z.to_nat r) as [|[|n]] eqn:Hr; simpl; [|done..].
    destruct (Z.to_nat c) as [|n] eqn:Hc; simpl; [|done].
    exfalso. apply Hne. f_equal; lia.
Defined.


(** ** The window: reading and writing the grid *)

Lemma elem_of_cells self rc :
  rc ∈ AStarGUI.cells self
  ↔ (0 ≤ rc.1 < AStarGUI.rows self ∧ 0 ≤ rc.2 < AStarGUI.cols self).
Proof.
  destruct rc as [r c]. unfold AStarGUI.cells.
  rewrite list_elem_of_In, in_prod_iff, <- !list_elem_of_In, !elem_of_seqZ.
  simpl. lia.
Qed.

Lemma wf_lookup (grid : grid_t) (nrows ncols : Z) (r c : Z) :
  length grid = Z.to_nat nrows →
  Forall (λ row, length row = Z.to_nat ncols ∧ Forall (λ v, v = 0 ∨ v = 1) row) grid →
  0 ≤ r < nrows → 0 ≤ c < ncols →
  ∃ row v, grid !! Z.to_nat r = Some row ∧ row !! Z.to_nat c = Some v
           ∧ length row = Z.to_nat ncols ∧ (v = 0 ∨ v = 1).
Proof.
  intros Hlen Hall Hr Hc.
  destruct (lookup_lt_is_Some_2 grid (Z.to_nat r)) as [row Hrow]; [lia|].
  rewrite Forall_forall in Hall.
  destruct (Hall row (list_elem_of_lookup_2 _ _ _ Hrow)) as [Hl Hv].
  destruct (lookup_lt_is_Some_2 row (Z.to_nat c)) as [v Hcell]; [lia|].
  rewrite Forall_forall in Hv. exists row, v. split_and!; try done.
  apply Hv. by eapply list_elem_of_lookup_2.
Qed.

Lemma wf_cell self rc :
  gui_wf self → rc ∈ AStarGUI.cells self →
  ∃ row v, getitem (AStarGUI.grid self) rc.1 = Ret row
           ∧ getitem row rc.2 = Ret v
           ∧ AStarGUI.grid self !! Z.to_nat rc.1 = Some row
           ∧ row !! Z.to_nat rc.2 = Some v
           ∧ cell_at (AStarGUI.grid self) rc = Some v ∧ (v = 0 ∨ v = 1).
Proof.
  intros (Hlen & Hall & _) [Hr Hc]%elem_of_cells.
  destruct (wf_lookup _ _ _ _ _ Hlen Hall Hr Hc) as (row & v & Hrow & Hv & _ & H01).
  exists row, v. split_and!; try done.
  - apply getitem_Some; [lia|done].
  - apply getitem_Some; [lia|done].
  - unfold cell_at. destruct (0 <=? rc.1) eqn:E1; [|lia].
    destruct (0 <=? rc.2) eqn:E2; [|lia]. simpl. by rewrite Hrow.
Qed.

Lemma wf_rectangular self : gui_wf self → rectangular (AStarGUI.grid self).
Proof.
  intros (_ & Hall & _). apply (rectangular_Forall (Z.to_nat (AStarGUI.cols self))).
  eapply Forall_impl; [exact Hall|]. by intros row [? _].
Qed.

Lemma walkable_cells self rc :
  gui_wf self → walkable (AStarGUI.grid self) rc → rc ∈ AStarGUI.cells self.
Proof.
  intros (Hlen & Hall & _) Hw. apply elem_of_cells.
  unfold walkable, cell_at in Hw.
  destruct (0 <=? rc.1) eqn:E1; [|done]. destruct (0 <=? rc.2) eqn:E2; [|done].
  simpl in Hw. destruct (AStarGUI.grid self !! Z.to_nat rc.1) as [row|] eqn:Hrow; [|done].
  simpl in Hw. rewrite Forall_forall in Hall.
  destruct (Hall row (list_elem_of_lookup_2 _ _ _ Hrow)) as [Hl _].
  apply lookup_lt_Some in Hw, Hrow. lia.
Qed.

(** ** The window: [refresh_all] *)

Lemma look_of_shown self p rc :
  gui_wf self → rc ∈ AStarGUI.cells self →
  AStarGUI.look_of self (list_to_set p) rc = Ret (shown self p rc).
Proof.
  intros Hwf Hrc. unfold AStarGUI.look_of, shown.
  destruct (decide (AStarGUI.start self = Some rc)); [done|].
  destruct (decide (AStarGUI.goal self = Some rc)); [done|].
  destruct (wf_cell self rc Hwf Hrc) as (row & v & -> & Hv & _ & _ & Hcell & H01).
  simpl. rewrite Hv, Hcell. simpl.
  destruct (Z.eqb_spec v 1) as [->|Hne].
  - by rewrite (decide_True (P := Some 1 = Some 1)).
  - rewrite (decide_False (P := Some v = Some 1)) by naive_solver.
    destruct (decide (rc ∈ (list_to_set p : gset coord) ∧ _)) as [H|H],
             (decide (rc ∈ p ∧ _)) as [H'|H']; try done.
    + destruct H'. destruct H as (?%elem_of_list_to_set & ? & ?). done.
    + destruct H. destruct H' as (? & ? & ?).
      split_and!; [by apply elem_of_list_to_set|done..].
Qed.

Lemma refresh_cell_spec self p x cv0 :
  gui_wf self → x ∈ AStarGUI.cells self → is_Some (cv0 !! x) →
  AStarGUI.refresh_cell (list_to_set p) x (AStarGUI.with_canvas cv0 self)
  = Ret (AStarGUI.with_canvas (<[x := shown self p x]> cv0) self).
Proof.
  intros Hwf Hx [lk0 Hlk0]. unfold AStarGUI.refresh_cell, dict_get. simpl.
  rewrite Hlk0. simpl.
  change (AStarGUI.look_of (AStarGUI.with_canvas cv0 self))
    with (AStarGUI.look_of self).
  by rewrite (look_of_shown self p x Hwf Hx).
Qed.

Lemma refresh_fold self p l cv0 :
  gui_wf self →
  (∀ rc, rc ∈ l → rc ∈ AStarGUI.cells self) →
  (∀ rc, rc ∈ l → is_Some (cv0 !! rc)) →
  ∃ cv, foldM (AStarGUI.refresh_cell (list_to_set p)) l (AStarGUI.with_canvas cv0 self)
        = Ret (AStarGUI.with_canvas cv self)
        ∧ ∀ rc, cv !! rc = if decide (rc ∈ l) then Some (shown self p rc) else cv0 !! rc.
Proof.
  intros Hwf. revert cv0. induction l as [|x l IH]; intros cv0 Hl Hcv.
  - exists cv0. split; [done|]. intros rc. rewrite decide_False; [done|].
    apply not_elem_of_nil.
  - destruct (IH (<[x := shown self p x]> cv0)) as (cv & Hfold & Hlook).
    + intros rc Hrc. apply Hl. set_solver.
    + intros rc Hrc. rewrite lookup_insert_is_Some. destruct (decide (x = rc)); auto.
      right. split; [done|]. apply Hcv. set_solver.
    + exists cv. split.
      * simpl. rewrite (refresh_cell_spec self p x cv0 Hwf) by
          (first [apply Hl | apply Hcv]; set_solver).
        exact Hfold.
      * intros rc. rewrite Hlook.
        destruct (decide (rc ∈ l)) as [Hin|Hin].
        -- rewrite decide_True by set_solver. done.
        -- destruct (decide (rc = x)) as [->|Hne].
           ++ rewrite decide_True by set_solver. by rewrite lookup_insert_eq.
           ++ rewrite decide_False by set_solver. by rewrite lookup_insert_ne.
Qed.

Lemma with_canvas_id self : AStarGUI.with_canvas (AStarGUI.canvas self) self = self.
Proof. by destruct self. Qed.

Lemma refresh_all_spec self :
  gui_wf self →
  ∃ cv, AStarGUI.refresh_all self = Ret (AStarGUI.with_canvas cv self)
        ∧ canvas_shows (AStarGUI.with_canvas cv self) (AStarGUI.path self).
Proof.
  intros Hwf. unfold AStarGUI.refresh_all.
  destruct (refresh_fold self (AStarGUI.path self) (AStarGUI.cells self)
              (AStarGUI.canvas self) Hwf) as (cv & Hcv & Hlook); [done|apply Hwf|].
  rewrite with_canvas_id in Hcv. exists cv. split; [done|].
  intros rc Hrc. simpl. rewrite Hlook. by rewrite decide_True.
Qed.

Lemma refresh_inv self :
  gui_wf self → ends_ok self → path_ok self →
  ∃ cv, AStarGUI.refresh_all self = Ret (AStarGUI.with_canvas cv self)
        ∧ gui_inv (AStarGUI.with_canvas cv self)
        ∧ canvas_shows (AStarGUI.with_canvas cv self) (AStarGUI.path self).
Proof.
  intros Hwf Hends Hpath.
  destruct (refresh_all_spec self Hwf) as (cv & Hcv & Hshows).
  exists cv. split_and!; [done| |done].
  split_and!; [|done|done|by eexists].
  destruct Hwf as (H1 & H2 & H3). split_and!; [done..|].
  intros rc Hrc. rewrite (Hshows rc Hrc). eauto.
Qed.

(** ** The window: from pixels to cells *)

Lemma pixel_in_cells self px py rc :
  AStarGUI.pixel_to_cell self px py = Ok (Some rc) → rc ∈ AStarGUI.cells self.
Proof.
  unfold AStarGUI.pixel_to_cell, floordiv.
  destruct (_ || _); [done|]. destruct (AStarGUI.cell self =? 0); [done|]. simpl.
  destruct (_ && _ && _) eqn:E; [|done]. intros [= <-].
  apply elem_of_cells. simpl.
  apply andb_prop in E as [[?%Z.leb_le ?%Z.ltb_lt]%andb_prop
                             [?%Z.leb_le ?%Z.ltb_lt]%andb_prop]. lia.
Qed.

Lemma div_range a b n : 0 < b → 0 ≤ a → (0 ≤ a / b < n ↔ a < n * b).
Proof.
  intros Hb Ha. pose proof (Z.div_mod a b ltac:(lia)) as Hdm.
  pose proof (Z.mod_pos_bound a b Hb). split; intros; [nia|].
  split; [apply Z.div_pos; lia|]. apply Z.div_lt_upper_bound; lia.
Qed.

(** X10: with a positive cell size, a click lands on a cell exactly when it
    falls in the area the grid occupies, [pad] pixels from the top-left
    corner, and the cell is the one whose row and column strip holds the
    pixel. *)
Theorem pixel_to_cell_spec self px py :
  0 < AStarGUI.cell self →
  AStarGUI.pixel_to_cell self px py =
  Ok (if decide (AStarGUI.pad self ≤ px
                   < AStarGUI.pad self + AStarGUI.cols self * AStarGUI.cell self
                 ∧ AStarGUI.pad self ≤ py
                   < AStarGUI.pad self + AStarGUI.rows self * AStarGUI.cell self)
      then Some ((py - AStarGUI.pad self) / AStarGUI.cell self,
                 (px - AStarGUI.pad self) / AStarGUI.cell self)
      else None).
Proof.
  intros Hcell. unfold AStarGUI.pixel_to_cell, floordiv.
  destruct (Z.ltb_spec (px - AStarGUI.pad self) 0) as [Hx|Hx]; simpl.
  { rewrite decide_False; [done|lia]. }
  destruct (Z.ltb_spec (py - AStarGUI.pad self) 0) as [Hy|Hy]; simpl.
  { rewrite decide_False; [done|lia]. }
  destruct (Z.eqb_spec (AStarGUI.cell self) 0); [lia|]. simpl.
  pose proof (div_range (px - AStarGUI.pad self) (AStarGUI.cell self)
                (AStarGUI.cols self) Hcell Hx) as Hc.
  pose proof (div_range (py - AStarGUI.pad self) (AStarGUI.cell self)
                (AStarGUI.rows self) Hcell Hy) as Hr.
  destruct (_ && _ && _) eqn:E.
  - apply andb_prop in E as [[?%Z.leb_le ?%Z.ltb_lt]%andb_prop
                               [?%Z.leb_le ?%Z.ltb_lt]%andb_prop].
    rewrite decide_True; [done|]. lia.
  - rewrite decide_False; [done|]. intros [Hpx Hpy].
    assert (0 ≤ (py - AStarGUI.pad self) / AStarGUI.cell self < AStarGUI.rows self)
      as [? ?] by (apply Hr; lia).
    assert (0 ≤ (px - AStarGUI.pad self) / AStarGUI.cell self < AStarGUI.cols self)
      as [? ?] by (apply Hc; lia).
    apply andb_false_iff in E as [E|E]; apply andb_false_iff in E as [E|E];
      first [apply Z.leb_gt in E | apply Z.ltb_ge in E]; lia.
Qed.

Lemma pixel_to_cell_spec_witness :
  AStarGUI.pixel_to_cell
    (AStarGUI.Gui 12 12 42 6 [] "wall" None None [] ∅) 100 50
  = Ok (Some (1, 2)).
Proof.
  apply (pixel_to_cell_spec (AStarGUI.Gui 12 12 42 6 [] "wall" None None [] ∅) 100 50).
  reflexivity.
Defined.

(** X11: with a positive cell size, every pixel of the rectangle drawn for a
    cell of the grid is mapped back to that cell by [pixel_to_cell]. *)
Theorem pixel_of_cell_rect self r c px py :
  0 < AStarGUI.cell self → (r, c) ∈ AStarGUI.cells self →
  (let '(x0, y0, x1, y1) := AStarGUI.cell_rect self r c in
   x0 ≤ px ≤ x1 ∧ y0 ≤ py ≤ y1) →
  AStarGUI.pixel_to_cell self px py = Ok (Some (r, c)).
Proof.
  intros Hcell [Hr Hc]%elem_of_cells. unfold AStarGUI.cell_rect. simpl in *.
  intros [Hx Hy]. unfold AStarGUI.pixel_to_cell, floordiv.
  assert (0 ≤ c * AStarGUI.cell self ∧ 0 ≤ r * AStarGUI.cell self) as [? ?] by nia.
  destruct (Z.ltb_spec (px - AStarGUI.pad self) 0); [lia|].
  destruct (Z.ltb_spec (py - AStarGUI.pad self) 0); [lia|]. simpl.
  destruct (Z.eqb_spec (AStarGUI.cell self) 0); [lia|]. simpl.
  assert ((px - AStarGUI.pad self) / AStarGUI.cell self = c) as ->.
  { symmetry. apply (Z.div_unique_pos _ _ c (px - AStarGUI.pad self - c * AStarGUI.cell self));
      lia. }
  assert ((py - AStarGUI.pad self) / AStarGUI.cell self = r) as ->.
  { symmetry. apply (Z.div_unique_pos _ _ r (py - AStarGUI.pad self - r * AStarGUI.cell self));
      lia. }
  destruct (Z.leb_spec 0 r); [|lia]. destruct (Z.ltb_spec r (AStarGUI.rows self)); [|lia].
  destruct (Z.leb_spec 0 c); [|lia]. destruct (Z.ltb_spec c (AStarGUI.cols self)); [|lia].
  done.
Qed.

Lemma pixel_of_cell_rect_witness :
  AStarGUI.pixel_to_cell
    (AStarGUI.Gui 12 12 42 6 [] "wall" None None [] ∅) 130 88
  = Ok (Some (1, 2)).
Proof.
  apply (pixel_of_cell_rect (AStarGUI.Gui 12 12 42 6 [] "wall" None None [] ∅) 1 2 130 88).
  - reflexivity.
  - apply elem_of_cells. simpl. lia.
  - simpl. lia.
Defined.

Lemma pixel_to_cell_err self px py e :
  AStarGUI.pixel_to_cell self px py = Err e
  ↔ e = ZeroDivisionError ∧ AStarGUI.cell self = 0
    ∧ AStarGUI.pad self ≤ px ∧ AStarGUI.pad self ≤ py.
Proof.
  unfold AStarGUI.pixel_to_cell, floordiv.
  destruct (Z.ltb_spec (px - AStarGUI.pad self) 0); simpl.
  { split; [done|lia]. }
  destruct (Z.ltb_spec (py - AStarGUI.pad self) 0); simpl.
  { split; [done|lia]. }
  destruct (Z.eqb_spec (AStarGUI.cell self) 0); simpl.
  - split; [intros [= <-]; split_and!; [done..|lia|lia]|]. by intros (-> & _).
  - destruct (_ && _ && _); split; try done; lia.
Qed.

Lemma pixel_to_cell_not_stuck self px py : AStarGUI.pixel_to_cell self px py ≠ Stuck.
Proof.
  unfold AStarGUI.pixel_to_cell, floordiv. destruct (_ || _); [done|].
  destruct (AStarGUI.cell self =? 0); [done|]. simpl. by destruct (_ && _ && _).
Qed.

(** X12: [pixel_to_cell] raises exactly when the cell size is zero and the
    click is at or beyond the padding on both axes; what it raises is
    [ZeroDivisionError]. *)
Theorem pixel_to_cell_raises self px py e :
  AStarGUI.pixel_to_cell self px py = Err e
  ↔ e = ZeroDivisionError ∧ AStarGUI.cell self = 0
    ∧ AStarGUI.pad self ≤ px ∧ AStarGUI.pad self ≤ py.
Proof. apply pixel_to_cell_err. Qed.

(** ** The window: writing a cell *)

Lemma setitem_Some {A : Type} (l : list A) (i : Z) (v : A) :
  0 ≤ i < len l → setitem l i v = Ret (<[Z.to_nat i := v]> l).
Proof.
  intros [H0 Hlt]. unfold setitem. cbv zeta.
  rewrite (proj2 (Z.leb_le 0 i) H0). cbv iota.
  rewrite (proj2 (Z.leb_le 0 i) H0), (proj2 (Z.ltb_lt i (len l)) Hlt). done.
Qed.

Lemma setitem2_spec (grid : grid_t) (nrows ncols r c v : Z) :
  length grid = Z.to_nat nrows →
  Forall (λ row, length row = Z.to_nat ncols ∧ Forall (λ v, v = 0 ∨ v = 1) row) grid →
  0 ≤ r < nrows → 0 ≤ c < ncols → v = 0 ∨ v = 1 →
  ∃ row, grid !! Z.to_nat r = Some row
    ∧ setitem2 grid r c v
      = Ret (<[Z.to_nat r := <[Z.to_nat c := v]> row]> grid)
    ∧ Forall (λ row, length row = Z.to_nat ncols ∧ Forall (λ v, v = 0 ∨ v = 1) row)
        (<[Z.to_nat r := <[Z.to_nat c := v]> row]> grid)
    ∧ ∀ q, cell_at (<[Z.to_nat r := <[Z.to_nat c := v]> row]> grid) q
           = if decide (q = (r, c)) then Some v else cell_at grid q.
Proof.
  intros Hlen Hall Hr Hc Hv.
  destruct (wf_lookup _ _ _ _ _ Hlen Hall Hr Hc) as (row & v0 & Hrow & Hv0 & Hl & _).
  exists row. split_and!; [done| | |].
  - unfold setitem2. rewrite (getitem_Some grid r row) by (done || lia). simpl.
    rewrite (setitem_Some row c v) by (unfold len; lia). simpl.
    apply setitem_Some. unfold len. lia.
  - apply Forall_insert; [done|]. rewrite Forall_forall in Hall.
    destruct (Hall row (list_elem_of_lookup_2 _ _ _ Hrow)) as [? H01].
    split; [by rewrite length_insert|]. by apply Forall_insert.
  - intros [r' c']. unfold cell_at. simpl.
    destruct (Z.leb_spec 0 r'); simpl; [|rewrite decide_False; [done|intros [= ? ?]; lia]].
    destruct (Z.leb_spec 0 c'); simpl; [|rewrite decide_False; [done|intros [= ? ?]; lia]].
    destruct (decide (r' = r)) as [->|Hr'].
    + rewrite list_lookup_insert_eq by lia. simpl.
      destruct (decide (c' = c)) as [->|Hc'].
      * rewrite decide_True by done. apply list_lookup_insert_eq. lia.
      * rewrite decide_False by (intros [= ?]; done).
        rewrite Hrow. simpl. apply list_lookup_insert_ne. lia.
    + rewrite decide_False by (intros [= ? ?]; done).
      by rewrite list_lookup_insert_ne by lia.
Qed.

(** ** The window: the handlers keep the invariant *)

Lemma refresh_step self :
  gui_wf self → ends_ok self → path_ok self →
  ∃ self', lift (AStarGUI.refresh_all self) = Ok self'
           ∧ gui_inv self' ∧ same_frame self self'
           ∧ canvas_shows self' (AStarGUI.path self')
           ∧ AStarGUI.grid self' = AStarGUI.grid self
           ∧ AStarGUI.start self' = AStarGUI.start self
           ∧ AStarGUI.goal self' = AStarGUI.goal self
           ∧ AStarGUI.path self' = AStarGUI.path self
           ∧ AStarGUI.mode self' = AStarGUI.mode self.
Proof.
  intros Hwf Hends Hpath.
  destruct (refresh_inv self Hwf Hends Hpath) as (cv & -> & Hinv & Hshows).
  eexists. split; [done|]. by split_and!.
Qed.

Lemma on_click_spec self x y :
  gui_inv self →
  match AStarGUI.on_click self x y with
  | Ok self' => gui_inv self' ∧ same_frame self self'
  | Err e => e = ZeroDivisionError ∧ AStarGUI.cell self = 0
  | Stuck => False
  end.
Proof.
  intros (Hwf & Hends & Hpath & p & Hshows). unfold AStarGUI.on_click.
  destruct (AStarGUI.pixel_to_cell self x y) as [[[r c]|]|e|] eqn:Hpix; simpl.
  2: { by split; [split_and!; [..|exists p]|]. }
  2: { by apply pixel_to_cell_err in Hpix as (-> & ? & _). }
  2: { by apply pixel_to_cell_not_stuck in Hpix. }
  pose proof (pixel_in_cells _ _ _ _ Hpix) as Hrc.
  set (s1 := AStarGUI.with_path [] self).
  assert (gui_wf s1) as Hwf1 by exact Hwf.
  assert (ends_ok s1) as Hends1 by exact Hends.
  assert (path_ok s1) as Hpath1 by (by left).
  assert (gui_inv s1) as Hinv1 by (split_and!; [done..|by exists p]).
  destruct (wf_cell s1 (r, c) Hwf1 Hrc)
    as (row & v & Hrow & Hv & Hlrow & Hlv & Hcell & H01).
  simpl in Hrow, Hv, Hcell.
  destruct (decide (AStarGUI.mode self = "wall"%string)).
  { destruct (decide (_ ∨ _)) as [Hhit|Hmiss]; [done|].
    rewrite Hrow. simpl. rewrite Hv. simpl.
    destruct Hwf as (Hlen & Hall & Hcv).
    apply elem_of_cells in Hrc as [Hr Hc]. simpl in Hr, Hc.
    destruct (setitem2_spec (AStarGUI.grid self) _ _ r c (if v =? 1 then 0 else 1)
                Hlen Hall Hr Hc) as (row' & Hrow' & -> & Hall' & Hcells).
    { destruct (v =? 1); auto. }
    simpl.
    destruct (refresh_step (AStarGUI.with_grid
                (<[Z.to_nat r := <[Z.to_nat c := if v =? 1 then 0 else 1]> row']>
                   (AStarGUI.grid self)) s1)) as (s' & -> & Hinv' & Hfr & _).
    - split_and!; simpl; [by rewrite length_insert|done|done].
    - destruct Hends as (Hs & Ht & Hst). split_and!; simpl; [| |done].
      + intros s Hstart. unfold walkable. rewrite Hcells.
        rewrite decide_False; [by apply Hs|]. intros Heq. apply Hmiss. left. congruence.
      + intros t Hgoal. unfold walkable. rewrite Hcells.
        rewrite decide_False; [by apply Ht|]. intros Heq. apply Hmiss. right. congruence.
    - by left.
    - done. }
  assert (v ≠ 1 → walkable (AStarGUI.grid self) (r, c)) as Hfree.
  { intros Hv1. unfold walkable. rewrite Hcell. f_equal. lia. }
  destruct (decide (AStarGUI.mode self = "start"%string)).
  { rewrite Hrow. simpl. rewrite Hv. simpl.
    destruct (Z.eqb_spec v 1); simpl; [done|]. case_bool_decide; [done|].
    destruct (refresh_step (AStarGUI.with_start (Some (r, c)) s1))
      as (s' & -> & Hinv' & Hfr & _); [done| |by left|done].
    destruct Hends as (Hs & Ht & Hst). split_and!; simpl; [|done|].
    - intros s [= <-]. by apply Hfree.
    - intros s t [= <-] Hgoal Heq. congruence. }
  destruct (decide (AStarGUI.mode self = "goal"%string)).
  { rewrite Hrow. simpl. rewrite Hv. simpl.
    destruct (Z.eqb_spec v 1); simpl; [done|]. case_bool_decide; [done|].
    destruct (refresh_step (AStarGUI.with_goal (Some (r, c)) s1))
      as (s' & -> & Hinv' & Hfr & _); [done| |by left|done].
    destruct Hends as (Hs & Ht & Hst). split_and!; simpl; [done| |].
    - intros t [= <-]. by apply Hfree.
    - intros s t Hstart [= <-] Heq. congruence. }
  destruct (refresh_step s1) as (s' & -> & Hinv' & Hfr & _); done.
Qed.

Lemma gui_astar_spec self s t :
  gui_wf self → walkable (AStarGUI.grid self) s →
  match Interactive.astar (AStarGUI.grid self) s t with
  | Ret (Some path) => good_path (AStarGUI.grid self) s t path
  | Ret None => ∀ n, ¬ reach (AStarGUI.grid self) s n t
  | _ => False
  end.
Proof.
  intros Hwf Hs.
  destruct (in_bounds_row0 _ _ (walkable_in_bounds _ _ Hs)) as [row0 Hrow0].
  exact (astar_spec (AStarGUI.grid self) s t row0 Hrow0 (wf_rectangular self Hwf)).
Qed.

Lemma run_spec self :
  gui_inv self →
  match AStarGUI.run self with
  | Ok (self', d) =>
      gui_inv self' ∧ same_frame self self'
      ∧ AStarGUI.grid self' = AStarGUI.grid self
      ∧ AStarGUI.start self' = AStarGUI.start self
      ∧ AStarGUI.goal self' = AStarGUI.goal self
      ∧ canvas_shows self' (AStarGUI.path self')
      ∧ match d with
        | Some Missing =>
            (AStarGUI.start self = None ∨ AStarGUI.goal self = None)
            ∧ AStarGUI.path self' = []
        | Some NoPath =>
            ∃ s t, AStarGUI.start self = Some s ∧ AStarGUI.goal self = Some t
                   ∧ Interactive.astar (AStarGUI.grid self) s t = Ret None
                   ∧ AStarGUI.path self' = []
        | None =>
            ∃ s t, AStarGUI.start self = Some s ∧ AStarGUI.goal self = Some t
                   ∧ Interactive.astar (AStarGUI.grid self) s t
                     = Ret (Some (AStarGUI.path self'))
        end
  | _ => False
  end.
Proof.
  intros (Hwf & Hends & Hpath & p & Hshows). unfold AStarGUI.run.
  destruct (refresh_step (AStarGUI.with_path [] self))
    as (s1 & -> & Hinv1 & Hfr1 & Hsh1 & Hg1 & Hs1 & Ht1 & Hp1 & _);
    [done|done|by left|].
  simpl in *.
  destruct (AStarGUI.start s1) as [s|] eqn:Es.
  2: { split_and!; try done; try congruence. left; congruence. }
  destruct (AStarGUI.goal s1) as [t|] eqn:Et.
  2: { split_and!; try done; try congruence. right; congruence. }
  pose proof Hinv1 as (Hwf1 & Hends1 & Hpath1 & _).
  pose proof (gui_astar_spec s1 s t Hwf1 (proj1 Hends1 s Es)) as Hspec.
  destruct (Interactive.astar (AStarGUI.grid s1) s t) as [[path|]| |] eqn:Hres;
    simpl; try done.
  - destruct path as [|x path]; [by destruct Hspec|].
    destruct (refresh_step (AStarGUI.with_path (x :: path) s1))
      as (s2 & -> & Hinv2 & Hfr2 & Hsh2 & Hg2 & Hs2 & Ht2 & Hp2 & _);
      [done|done| |].
    { right. exists s, t. by split_and!. }
    simpl in *. split_and!; try congruence; try done.
    + unfold same_frame in *. simpl in *.
      destruct Hfr1 as (? & ? & ? & ?), Hfr2 as (? & ? & ? & ?).
      split_and!; congruence.
    + exists s, t. rewrite Hp2, <- Hg1. by split_and!; try congruence.
  - split_and!; try done; try congruence; try exact Hfr1.
    exists s, t. rewrite <- Hg1. by split_and!; try congruence.
Qed.

Lemma clear_path_spec self :
  gui_inv self →
  ∃ self', AStarGUI.clear_path self = Ok self'
           ∧ gui_inv self' ∧ same_frame self self'
           ∧ AStarGUI.path self' = [] ∧ canvas_shows self' [].
Proof.
  intros (Hwf & Hends & Hpath & _). unfold AStarGUI.clear_path.
  destruct (refresh_step (AStarGUI.with_path [] self))
    as (s1 & -> & Hinv1 & Hfr1 & Hsh1 & _ & _ & _ & Hp1 & _); [done|done|by left|].
  exists s1. simpl in Hp1. rewrite Hp1 in Hsh1. by split_and!.
Qed.

Lemma replicate_wf (nrows ncols : Z) :
  Forall (λ row, length row = Z.to_nat ncols ∧ Forall (λ v, v = 0 ∨ v = 1) row)
    (replicate (Z.to_nat nrows) (replicate (Z.to_nat ncols) 0)).
Proof.
  apply Forall_replicate. split; [apply length_replicate|].
  apply Forall_replicate. by left.
Qed.

Lemma reset_all_spec self :
  gui_inv self →
  ∃ self', AStarGUI.reset_all self = Ok self'
           ∧ gui_inv self' ∧ same_frame self self'
           ∧ AStarGUI.grid self'
             = replicate (Z.to_nat (AStarGUI.rows self))
                 (replicate (Z.to_nat (AStarGUI.cols self)) 0)
           ∧ AStarGUI.start self' = None ∧ AStarGUI.goal self' = None
           ∧ AStarGUI.path self' = [].
Proof.
  intros (Hwf & _). unfold AStarGUI.reset_all.
  match goal with
  | |- ∃ _, lift (AStarGUI.refresh_all ?s) = _ ∧ _ =>
      destruct (refresh_step s) as (s1 & -> & Hinv1 & Hfr1 & _ & Hg & Hs & Ht & Hp & _)
  end.
  - split_and!; simpl; [apply length_replicate|apply replicate_wf|apply Hwf].
  - by split_and!.
  - by left.
  - exists s1. by split_and!.
Qed.

Lemma init_spec (rows0 cols0 cell0 pad0 : Z) :
  ∃ self, AStarGUI.init rows0 cols0 cell0 pad0 = Ret self
          ∧ gui_inv self ∧ canvas_shows self []
          ∧ AStarGUI.rows self = rows0 ∧ AStarGUI.cols self = cols0
          ∧ AStarGUI.cell self = cell0 ∧ AStarGUI.pad self = pad0
          ∧ AStarGUI.grid self
            = replicate (Z.to_nat rows0) (replicate (Z.to_nat cols0) 0)
          ∧ AStarGUI.start self = None ∧ AStarGUI.goal self = None
          ∧ AStarGUI.path self = [] ∧ AStarGUI.mode self = "wall"%string.
Proof.
  unfold AStarGUI.init.
  match goal with
  | |- ∃ _, AStarGUI.refresh_all ?s = _ ∧ _ =>
      destruct (refresh_inv s) as (cv & -> & Hinv & Hsh)
  end.
  - split_and!; simpl; [apply length_replicate|apply replicate_wf|].
    intros rc Hrc. apply not_eq_None_Some. intros Hnone.
    apply not_elem_of_list_to_map in Hnone. apply Hnone.
    rewrite <- list_fmap_compose. apply list_elem_of_fmap. by exists rc.
  - by split_and!.
  - by left.
  - eexists. by split_and!.
Qed.

Lemma handle_spec self ev :
  gui_inv self →
  match AStarGUI.handle self ev with
  | Ok (self', d) => gui_inv self' ∧ same_frame self self'
  | Err e => e = ZeroDivisionError ∧ AStarGUI.cell self = 0 ∧ ∃ x y, ev = Click x y
  | Stuck => False
  end.
Proof.
  intros Hinv. destruct ev as [x y|b| | |]; simpl.
  - pose proof (on_click_spec self x y Hinv) as Hc.
    destruct (AStarGUI.on_click self x y) as [s'|e|]; simpl; [done| |done].
    destruct Hc as [-> ?]. eauto.
  - destruct Hinv as (Hwf & Hends & Hpath & p & Hshows).
    by split; [split_and!; [..|exists p]|].
  - pose proof (run_spec self Hinv) as Hr.
    destruct (AStarGUI.run self) as [[s' d]|e|]; [|done..]. by destruct Hr as (? & ? & _).
  - destruct (clear_path_spec self Hinv) as (s' & -> & ? & ? & _). done.
  - destruct (reset_all_spec self Hinv) as (s' & -> & ? & ? & _). done.
Qed.

Lemma reachable_inv rows0 cols0 cell0 pad0 self :
  AStarGUI.reachable rows0 cols0 cell0 pad0 self →
  gui_inv self
  ∧ AStarGUI.rows self = rows0 ∧ AStarGUI.cols self = cols0
  ∧ AStarGUI.cell self = cell0 ∧ AStarGUI.pad self = pad0.
Proof.
  induction 1 as [self Hinit|self ev self' d _ (Hinv & Hr & Hc & Hl & Hp) Hh].
  - destruct (init_spec rows0 cols0 cell0 pad0)
      as (self0 & Hinit0 & Hinv & _ & ? & ? & ? & ? & _).
    assert (self0 = self) as <- by congruence. done.
  - pose proof (handle_spec self ev Hinv) as Hs. rewrite Hh in Hs.
    destruct Hs as (Hinv' & ? & ? & ? & ?). split_and!; [done|congruence..].
Qed.

(** X13: whatever the user does, the window hands [astar] what it expects:
    the grid keeps its [rows] by [cols] cells, each [0] or [1], and start and
    goal, once chosen, are two different walkable cells of the grid. *)
Theorem gui_keeps_search_contract rows0 cols0 cell0 pad0 self :
  AStarGUI.reachable rows0 cols0 cell0 pad0 self →
  length (AStarGUI.grid self) = Z.to_nat rows0
  ∧ Forall (λ row, length row = Z.to_nat cols0 ∧ Forall (λ v, v = 0 ∨ v = 1) row)
      (AStarGUI.grid self)
  ∧ (∀ s, AStarGUI.start self = Some s → walkable (AStarGUI.grid self) s)
  ∧ (∀ t, AStarGUI.goal self = Some t → walkable (AStarGUI.grid self) t)
  ∧ (∀ s t, AStarGUI.start self = Some s → AStarGUI.goal self = Some t → s ≠ t).
Proof.
  intros (((Hlen & Hall & _) & (Hs & Ht & Hst) & _) & <- & <- & _)%reachable_inv.
  by split_and!.
Qed.

(** X14: no callback of the window raises, except a click when the cell size
    is zero, which raises [ZeroDivisionError]; in particular [astar] never
    fails when called from the window. *)
Theorem gui_handlers_safe rows0 cols0 cell0 pad0 self ev :
  AStarGUI.reachable rows0 cols0 cell0 pad0 self →
  match AStarGUI.handle self ev with
  | Ok _ => True
  | Err e => e = ZeroDivisionError ∧ cell0 = 0 ∧ ∃ x y, ev = Click x y
  | Stuck => False
  end.
Proof.
  intros (Hinv & _ & _ & <- & _)%reachable_inv.
  pose proof (handle_spec self ev Hinv) as Hs.
  by destruct (AStarGUI.handle self ev) as [[? ?]| |].
Qed.

Lemma reachable_play rows0 cols0 cell0 pad0 self evs self' :
  AStarGUI.reachable rows0 cols0 cell0 pad0 self → play self evs = Ok self' →
  AStarGUI.reachable rows0 cols0 cell0 pad0 self'.
Proof.
  revert self. induction evs as [|ev evs IH]; intros self Hr; simpl.
  - by intros [= <-].
  - destruct (AStarGUI.handle self ev) as [[s1 d]| |] eqn:Hh; [simpl|done..].
    apply IH. by eapply AStarGUI.reachable_handle.
Qed.

Lemma example_window_reachable : AStarGUI.reachable 2 2 10 3 example_window.
Proof.
  destruct (AStarGUI.init 2 2 10 3) as [self0| |] eqn:Hinit;
    [|by vm_compute in Hinit..].
  eapply (reachable_play _ _ _ _ self0 example_clicks);
    [by apply AStarGUI.reachable_init|].
  vm_compute in Hinit. injection Hinit as <-. vm_compute. reflexivity.
Qed.

Lemma gui_keeps_search_contract_witness :
  length (AStarGUI.grid example_window) = Z.to_nat 2
  ∧ Forall (λ row, length row = Z.to_nat 2 ∧ Forall (λ v, v = 0 ∨ v = 1) row)
      (AStarGUI.grid example_window)
  ∧ (∀ s, AStarGUI.start example_window = Some s
          → walkable (AStarGUI.grid example_window) s)
  ∧ (∀ t, AStarGUI.goal example_window = Some t
          → walkable (AStarGUI.grid example_window) t)
  ∧ (∀ s t, AStarGUI.start example_window = Some s
            → AStarGUI.goal example_window = Some t → s ≠ t).
Proof.
  apply (gui_keeps_search_contract 2 2 10 3 example_window).
  apply example_window_reachable.
Defined.

Lemma gui_handlers_safe_witness :
  match AStarGUI.handle example_window RunAStar with
  | Ok _ => True
  | Err e => e = ZeroDivisionError ∧ 10 = 0 ∧ ∃ x y, RunAStar = Click x y
  | Stuck => False
  end.
Proof.
  apply (gui_handlers_safe 2 2 10 3 example_window RunAStar).
  apply example_window_reachable.
Defined.

(** ** The window: what the user sees *)

Lemma good_path_shortest grid s t path :
  walkable grid s → good_path grid s t path →
  route grid s t path ∧ ∀ l, route grid s t l → steps path ≤ steps l.
Proof.
  intros Hs Hgood. split; [by apply good_path_route|].
  intros l Hl. destruct Hgood as (_ & _ & _ & Hmin). by apply Hmin, route_reach.
Qed.

Lemma gui_found_shortest self s t path :
  gui_inv self → AStarGUI.start self = Some s →
  Interactive.astar (AStarGUI.grid self) s t = Ret (Some path) →
  route (AStarGUI.grid self) s t path
  ∧ ∀ l, route (AStarGUI.grid self) s t l → steps path ≤ steps l.
Proof.
  intros (Hwf & (Hs & _) & _) Hstart Hres.
  pose proof (gui_astar_spec self s t Hwf (Hs s Hstart)) as Hspec.
  rewrite Hres in Hspec. by apply good_path_shortest; [apply Hs|].
Qed.

(** X15: pressing "Run A*" reports "Missing" exactly when start or goal is
    not set, reports "No path" exactly when no route through walkable cells
    joins them, and otherwise keeps for display a shortest such route. *)
Theorem gui_run_outcome rows0 cols0 cell0 pad0 self :
  AStarGUI.reachable rows0 cols0 cell0 pad0 self →
  match AStarGUI.run self with
  | Ok (self', None) =>
      ∃ s t, AStarGUI.start self = Some s ∧ AStarGUI.goal self = Some t
             ∧ route (AStarGUI.grid self) s t (AStarGUI.path self')
             ∧ ∀ l, route (AStarGUI.grid self) s t l
                    → steps (AStarGUI.path self') ≤ steps l
  | Ok (self', Some NoPath) =>
      ∃ s t, AStarGUI.start self = Some s ∧ AStarGUI.goal self = Some t
             ∧ (¬ ∃ l, route (AStarGUI.grid self) s t l)
             ∧ AStarGUI.path self' = []
  | Ok (self', Some Missing) =>
      (AStarGUI.start self = None ∨ AStarGUI.goal self = None)
      ∧ AStarGUI.path self' = []
  | _ => False
  end.
Proof.
  intros [Hinv _]%reachable_inv. pose proof (run_spec self Hinv) as Hr.
  destruct (AStarGUI.run self) as [[self' [[|]|]]| |]; try done.
  - by destruct Hr as (_ & _ & _ & _ & _ & _ & ?).
  - destruct Hr as (_ & _ & _ & _ & _ & _ & s & t & Hs & Ht & Hres & Hp).
    exists s, t. split_and!; try done. intros [l Hl].
    destruct Hinv as (Hwf & (Hws & _) & _).
    pose proof (gui_astar_spec self s t Hwf (Hws s Hs)) as Hspec.
    rewrite Hres in Hspec. by apply (Hspec (steps l)), route_reach.
  - destruct Hr as (_ & _ & _ & _ & _ & _ & s & t & Hs & Ht & Hres).
    exists s, t. split; [done|]. split; [done|]. by apply gui_found_shortest.
Qed.

Lemma gui_run_outcome_witness :
  match AStarGUI.run example_window with
  | Ok (self', None) =>
      ∃ s t, AStarGUI.start example_window = Some s
             ∧ AStarGUI.goal example_window = Some t
             ∧ route (AStarGUI.grid example_window) s t (AStarGUI.path self')
             ∧ ∀ l, route (AStarGUI.grid example_window) s t l
                    → steps (AStarGUI.path self') ≤ steps l
  | Ok (self', Some NoPath) =>
      ∃ s t, AStarGUI.start example_window = Some s
             ∧ AStarGUI.goal example_window = Some t
             ∧ (¬ ∃ l, route (AStarGUI.grid example_window) s t l)
             ∧ AStarGUI.path self' = []
  | Ok (self', Some Missing) =>
      (AStarGUI.start example_window = None ∨ AStarGUI.goal example_window = None)
      ∧ AStarGUI.path self' = []
  | _ => False
  end.
Proof.
  apply (gui_run_outcome 2 2 10 3 example_window).
  apply example_window_reachable.
Defined.

(** X16: the path the window keeps is never out of date: in every state it is
    empty or a shortest route between the current start and goal on the
    current grid. *)
Theorem gui_path_never_stale rows0 cols0 cell0 pad0 self :
  AStarGUI.reachable rows0 cols0 cell0 pad0 self →
  AStarGUI.path self = []
  ∨ ∃ s t, AStarGUI.start self = Some s ∧ AStarGUI.goal self = Some t
           ∧ route (AStarGUI.grid self) s t (AStarGUI.path self)
           ∧ ∀ l, route (AStarGUI.grid self) s t l
                  → steps (AStarGUI.path self) ≤ steps l.
Proof.
  intros [Hinv _]%reachable_inv.
  destruct (proj1 (proj2 (proj2 Hinv))) as [Hp|(s & t & Hs & Ht & Hres)]; [by left|].
  right. exists s, t. split; [done|]. split; [done|]. by apply gui_found_shortest.
Qed.

Lemma example_window_run_reachable : AStarGUI.reachable 2 2 10 3 example_window_run.
Proof.
  eapply (reachable_play _ _ _ _ example_window [RunAStar]);
    [apply example_window_reachable|].
  vm_compute. reflexivity.
Qed.

Lemma gui_path_never_stale_witness :
  AStarGUI.path example_window_run = []
  ∨ ∃ s t, AStarGUI.start example_window_run = Some s
           ∧ AStarGUI.goal example_window_run = Some t
           ∧ route (AStarGUI.grid example_window_run) s t
               (AStarGUI.path example_window_run)
           ∧ ∀ l, route (AStarGUI.grid example_window_run) s t l
                  → steps (AStarGUI.path example_window_run) ≤ steps l.
Proof.
  apply (gui_path_never_stale 2 2 10 3 example_window_run).
  apply example_window_run_reachable.
Defined.

Example example_window_run_path :
  AStarGUI.path example_window_run = [(0, 1); (1, 1); (1, 0)].
Proof. reflexivity. Qed.

Lemma label_shown self p rc :
  canvas_shows self p → rc ∈ AStarGUI.cells self →
  label_at self rc = Some (shown self p rc).1.2.
Proof. intros Hsh Hrc. unfold label_at. by rewrite (Hsh rc Hrc). Qed.

(** X17: in every state, on every cell of the grid, the canvas shows "S"
    exactly on the start, "G" exactly on the goal and "W" exactly on the
    walls. *)
Theorem gui_canvas_legend rows0 cols0 cell0 pad0 self rc :
  AStarGUI.reachable rows0 cols0 cell0 pad0 self → rc ∈ AStarGUI.cells self →
  (label_at self rc = Some "S"%string ↔ AStarGUI.start self = Some rc)
  ∧ (label_at self rc = Some "G"%string ↔ AStarGUI.goal self = Some rc)
  ∧ (label_at self rc = Some "W"%string ↔ cell_at (AStarGUI.grid self) rc = Some 1).
Proof.
  intros [(Hwf & (Hs & Ht & Hst) & _ & p & Hsh) _]%reachable_inv Hrc.
  rewrite (label_shown self p rc Hsh Hrc). unfold shown.
  destruct (decide (AStarGUI.start self = Some rc)) as [Hstart|Hstart].
  { pose proof (Hs rc Hstart) as Hw. unfold walkable in Hw. simpl.
    split_and!; split; try done.
    - intros Hg. by destruct (Hst rc rc Hstart Hg).
    - rewrite Hw. by intros [= ?]. }
  destruct (decide (AStarGUI.goal self = Some rc)) as [Hgoal|Hgoal].
  { pose proof (Ht rc Hgoal) as Hw. unfold walkable in Hw. simpl.
    split_and!; split; try done. rewrite Hw. by intros [= ?]. }
  destruct (decide (cell_at (AStarGUI.grid self) rc = Some 1)).
  { simpl. split_and!; split; done. }
  destruct (decide (rc ∈ p ∧ _)); simpl; split_and!; split; done.
Qed.

Lemma gui_canvas_legend_witness :
  (label_at example_window (0, 0) = Some "S"%string
   ↔ AStarGUI.start example_window = Some (0, 0))
  ∧ (label_at example_window (0, 0) = Some "G"%string
     ↔ AStarGUI.goal example_window = Some (0, 0))
  ∧ (label_at example_window (0, 0) = Some "W"%string
     ↔ cell_at (AStarGUI.grid example_window) (0, 0) = Some 1).
Proof.
  apply (gui_canvas_legend 2 2 10 3 example_window (0, 0)).
  - apply example_window_reachable.
  - apply elem_of_cells. simpl. lia.
Defined.

(** X18: after a "Run A*" that finds a path, the canvas shows "•" exactly on
    the cells of that path other than start and goal. *)
Theorem gui_run_draws_path rows0 cols0 cell0 pad0 self self' rc :
  AStarGUI.reachable rows0 cols0 cell0 pad0 self →
  AStarGUI.run self = Ok (self', None) → rc ∈ AStarGUI.cells self' →
  label_at self' rc = Some "•"%string
  ↔ (rc ∈ AStarGUI.path self'
     ∧ Some rc ≠ AStarGUI.start self' ∧ Some rc ≠ AStarGUI.goal self').
Proof.
  intros [Hinv _]%reachable_inv Hrun Hrc.
  pose proof (run_spec self Hinv) as Hr. rewrite Hrun in Hr.
  destruct Hr as (Hinv' & _ & Hg & Hs & Ht & Hsh & s & t & Hstart & Hgoal & Hres).
  rewrite (label_shown self' _ rc Hsh Hrc). unfold shown.
  destruct (decide (AStarGUI.start self' = Some rc)) as [E|E].
  { simpl. split; [done|]. intros (_ & Hne & _). congruence. }
  destruct (decide (AStarGUI.goal self' = Some rc)) as [E'|E'].
  { simpl. split; [done|]. intros (_ & _ & Hne). congruence. }
  destruct (decide (cell_at (AStarGUI.grid self') rc = Some 1)) as [Hwall|Hwall].
  { simpl. split; [done|]. intros (Hin & _).
    destruct (gui_found_shortest self s t _ Hinv Hstart Hres) as [(_ & _ & Hall & _) _].
    rewrite Forall_forall in Hall. specialize (Hall rc Hin).
    unfold walkable in Hall. rewrite Hg in Hwall. congruence. }
  destruct (decide (rc ∈ AStarGUI.path self' ∧ _)); simpl; split; done.
Qed.

Lemma gui_run_draws_path_witness :
  label_at example_window_run (1, 1) = Some "•"%string
  ↔ ((1, 1) ∈ AStarGUI.path example_window_run
     ∧ Some (1, 1) ≠ AStarGUI.start example_window_run
     ∧ Some (1, 1) ≠ AStarGUI.goal example_window_run).
Proof.
  apply (gui_run_draws_path 2 2 10 3 example_window example_window_run (1, 1)).
  - apply example_window_reachable.
  - vm_compute. reflexivity.
  - apply elem_of_cells. simpl. lia.
Defined.

(** X19: a click the window refuses (a wall on start or goal, a start or
    goal on a wall or on the other end) forgets the stored path and redraws
    nothing: the canvas keeps showing what it showed. *)
Theorem gui_refused_click rows0 cols0 cell0 pad0 self x y rc :
  AStarGUI.reachable rows0 cols0 cell0 pad0 self →
  AStarGUI.pixel_to_cell self x y = Ok (Some rc) →
  (AStarGUI.mode self = "wall"%string
   ∧ (AStarGUI.start self = Some rc ∨ AStarGUI.goal self = Some rc))
  ∨ (AStarGUI.mode self = "start"%string
     ∧ (cell_at (AStarGUI.grid self) rc = Some 1 ∨ AStarGUI.goal self = Some rc))
  ∨ (AStarGUI.mode self = "goal"%string
     ∧ (cell_at (AStarGUI.grid self) rc = Some 1 ∨ AStarGUI.start self = Some rc)) →
  AStarGUI.on_click self x y = Ok (AStarGUI.with_path [] self).
Proof.
  intros [(Hwf & _) _]%reachable_inv Hpix Hcase. unfold AStarGUI.on_click.
  rewrite Hpix. simpl. destruct rc as [r c].
  destruct (wf_cell self (r, c) Hwf (pixel_in_cells _ _ _ _ Hpix))
    as (row & v & Hrow & Hv & _ & _ & Hcell & _).
  simpl in Hrow, Hv.
  destruct Hcase as [[Hm Hhit]|[[Hm Hhit]|[Hm Hhit]]]; rewrite Hm; simpl.
  - by rewrite decide_True.
  - rewrite Hrow. simpl. rewrite Hv. simpl. destruct Hhit as [Hw|Hg].
    + rewrite Hcell in Hw. injection Hw as ->. done.
    + rewrite (bool_decide_eq_true_2 _ Hg). by rewrite orb_true_r.
  - rewrite Hrow. simpl. rewrite Hv. simpl. destruct Hhit as [Hw|Hs].
    + rewrite Hcell in Hw. injection Hw as ->. done.
    + rewrite (bool_decide_eq_true_2 _ Hs). by rewrite orb_true_r.
Qed.

Lemma gui_refused_click_witness :
  AStarGUI.on_click example_window_run 15 5
  = Ok (AStarGUI.with_path [] example_window_run).
Proof.
  apply (gui_refused_click 2 2 10 3 example_window_run 15 5 (0, 1)).
  - apply example_window_run_reachable.
  - reflexivity.
  - right. right. split; [reflexivity|]. right. reflexivity.
Defined.

Lemma on_click_wall self x y r c :
  gui_inv self → AStarGUI.mode self = "wall"%string →
  AStarGUI.pixel_to_cell self x y = Ok (Some (r, c)) →
  AStarGUI.start self ≠ Some (r, c) → AStarGUI.goal self ≠ Some (r, c) →
  ∃ row v cv,
    AStarGUI.grid self !! Z.to_nat r = Some row ∧ row !! Z.to_nat c = Some v
    ∧ (v = 0 ∨ v = 1) ∧ 0 ≤ r ∧ 0 ≤ c
    ∧ AStarGUI.on_click self x y
      = Ok (AStarGUI.with_canvas cv
              (AStarGUI.with_grid
                 (<[Z.to_nat r := <[Z.to_nat c := if v =? 1 then 0 else 1]> row]>
                    (AStarGUI.grid self))
                 (AStarGUI.with_path [] self))).
Proof.
  intros (Hwf & Hends & _) Hm Hpix Hs Hg. unfold AStarGUI.on_click.
  rewrite Hpix, Hm. simpl.
  pose proof (pixel_in_cells _ _ _ _ Hpix) as Hrc.
  destruct (wf_cell self (r, c) Hwf Hrc) as (row & v & Hrow & Hv & Hlrow & Hlv & _ & H01).
  simpl in *. rewrite decide_False by (by intros [?|?]).
  rewrite Hrow. simpl. rewrite Hv. simpl.
  pose proof Hwf as (Hlen & Hall & Hcv).
  apply elem_of_cells in Hrc as [Hr Hc]. simpl in Hr, Hc.
  destruct (setitem2_spec (AStarGUI.grid self) _ _ r c (if v =? 1 then 0 else 1)
              Hlen Hall Hr Hc) as (row' & Hrow' & -> & Hall' & _).
  { destruct (v =? 1); auto. }
  assert (row' = row) as -> by congruence. simpl.
  match goal with
  | |- ∃ _ _ _, _ ∧ _ ∧ _ ∧ _ ∧ _ ∧ lift (AStarGUI.refresh_all ?s) = _ =>
      destruct (refresh_all_spec s) as (cv & -> & _)
  end.
  { split_and!; simpl; [by rewrite length_insert|done|done]. }
  exists row, v, cv. split_and!; try done; lia.
Qed.

(** X20: a wall click on a cell that is neither start nor goal flips that
    cell and no other; the same click again gives back the grid as it was. *)
Theorem gui_wall_click_twice rows0 cols0 cell0 pad0 self x y rc :
  AStarGUI.reachable rows0 cols0 cell0 pad0 self →
  AStarGUI.mode self = "wall"%string →
  AStarGUI.pixel_to_cell self x y = Ok (Some rc) →
  AStarGUI.start self ≠ Some rc → AStarGUI.goal self ≠ Some rc →
  ∃ s1 s2 v,
    cell_at (AStarGUI.grid self) rc = Some v
    ∧ AStarGUI.on_click self x y = Ok s1
    ∧ (∀ q, cell_at (AStarGUI.grid s1) q
            = if decide (q = rc) then Some (1 - v) else cell_at (AStarGUI.grid self) q)
    ∧ AStarGUI.on_click s1 x y = Ok s2
    ∧ AStarGUI.grid s2 = AStarGUI.grid self.
Proof.
  intros [Hinv _]%reachable_inv Hm Hpix Hs Hg. destruct rc as [r c].
  destruct (on_click_wall self x y r c Hinv Hm Hpix Hs Hg)
    as (row & v & cv & Hrow & Hv & H01 & Hr & Hc & Hclick).
  pose proof (on_click_spec self x y Hinv) as Hinv1. rewrite Hclick in Hinv1.
  destruct Hinv1 as [Hinv1 _].
  destruct (on_click_wall _ x y r c Hinv1 Hm Hpix Hs Hg)
    as (row1 & v1 & cv1 & Hrow1 & Hv1 & _ & _ & _ & Hclick1).
  simpl in Hrow1.
  pose proof (lookup_lt_Some _ _ _ Hrow) as Hlr.
  pose proof (lookup_lt_Some _ _ _ Hv) as Hlc.
  rewrite list_lookup_insert_eq in Hrow1 by done. injection Hrow1 as <-.
  rewrite list_lookup_insert_eq in Hv1 by done. injection Hv1 as <-.
  eexists _, _, v. split_and!; [|exact Hclick| |exact Hclick1|].
  - unfold cell_at. simpl. rewrite (proj2 (Z.leb_le 0 r) Hr), (proj2 (Z.leb_le 0 c) Hc).
    simpl. by rewrite Hrow.
  - intros [r' c']. simpl. unfold cell_at. simpl.
    destruct (Z.leb_spec 0 r'); simpl; [|rewrite decide_False; [done|intros [= ? ?]; lia]].
    destruct (Z.leb_spec 0 c'); simpl; [|rewrite decide_False; [done|intros [= ? ?]; lia]].
    destruct (decide (r' = r)) as [->|Hr'].
    + rewrite list_lookup_insert_eq by done. simpl. rewrite Hrow. simpl.
      destruct (decide (c' = c)) as [->|Hc'].
      * rewrite decide_True by done. rewrite list_lookup_insert_eq by done.
        f_equal. destruct H01 as [-> | ->]; done.
      * rewrite decide_False by (intros [= ?]; done).
        apply list_lookup_insert_ne. lia.
    + rewrite decide_False by (intros [= ? ?]; done).
      by rewrite list_lookup_insert_ne by lia.
  - simpl. rewrite list_insert_insert_eq, list_insert_insert_eq.
    replace (if (if v =? 1 then 0 else 1) =? 1 then 0 else 1) with v
      by (destruct H01 as [-> | ->]; done).
    by rewrite (list_insert_id row), list_insert_id.
Qed.

Lemma gui_wall_click_twice_witness :
  ∃ s1 s2 v,
    cell_at (AStarGUI.grid (AStarGUI.with_mode "wall" example_window)) (1, 1) = Some v
    ∧ AStarGUI.on_click (AStarGUI.with_mode "wall" example_window) 15 15 = Ok s1
    ∧ (∀ q, cell_at (AStarGUI.grid s1) q
            = if decide (q = (1, 1)) then Some (1 - v)
              else cell_at (AStarGUI.grid (AStarGUI.with_mode "wall" example_window)) q)
    ∧ AStarGUI.on_click s1 15 15 = Ok s2
    ∧ AStarGUI.grid s2 = AStarGUI.grid (AStarGUI.with_mode "wall" example_window).
Proof.
  apply (gui_wall_click_twice 2 2 10 3 (AStarGUI.with_mode "wall" example_window)
           15 15 (1, 1)).
  - eapply (AStarGUI.reachable_handle _ _ _ _ example_window (Choose Walls));
      [apply example_window_reachable|reflexivity].
  - reflexivity.
  - reflexivity.
  - discriminate.
  - discriminate.
Defined.

(** X21: with a cell size of at least two pixels and a padding that is not
    negative, the rectangle drawn for each cell of the grid is not empty and
    lies inside the canvas, at least [pad] pixels from its border, and the
    rectangles of two different cells share no pixel. *)
Theorem gui_rectangles_tile self r c r' c' px py :
  2 ≤ AStarGUI.cell self → 0 ≤ AStarGUI.pad self →
  (r, c) ∈ AStarGUI.cells self → (r', c') ∈ AStarGUI.cells self →
  (let '(x0, y0, x1, y1) := AStarGUI.cell_rect self r c in
   let '(w, h) := AStarGUI.canvas_size self in
   AStarGUI.pad self ≤ x0 ≤ x1 ∧ x1 < w - AStarGUI.pad self
   ∧ AStarGUI.pad self ≤ y0 ≤ y1 ∧ y1 < h - AStarGUI.pad self)
  ∧ (in_rect self r c px py → in_rect self r' c' px py → (r, c) = (r', c')).
Proof.
  intros Hcell Hpad [Hr Hc]%elem_of_cells [Hr' Hc']%elem_of_cells.
  unfold in_rect, AStarGUI.cell_rect, AStarGUI.canvas_size. simpl in *. split.
  - nia.
  - intros [Hx Hy] [Hx' Hy'].
    assert (c = c') as -> by nia. assert (r = r') as -> by nia. done.
Qed.

Lemma gui_rectangles_tile_witness :
  (let '(x0, y0, x1, y1) := AStarGUI.cell_rect example_window 0 1 in
   let '(w, h) := AStarGUI.canvas_size example_window in
   AStarGUI.pad example_window ≤ x0 ≤ x1 ∧ x1 < w - AStarGUI.pad example_window
   ∧ AStarGUI.pad example_window ≤ y0 ≤ y1 ∧ y1 < h - AStarGUI.pad example_window)
  ∧ (in_rect example_window 0 1 15 5 → in_rect example_window 1 1 15 5
     → (0, 1) = (1, 1)).
Proof.
  apply (gui_rectangles_tile example_window 0 1 1 1 15 5).
  - vm_compute. discriminate.
  - vm_compute. discriminate.
  - apply elem_of_cells. simpl. lia.
  - apply elem_of_cells. simpl. lia.
Defined.


(** ** The picture of the example script *)

Lemma string_app_assoc (a b c : string) : ((a +:+ b) +:+ c = a +:+ (b +:+ c))%string.
Proof.
  induction a as [|x a IH]; [done|].
  change (String x ((a +:+ b) +:+ c) = String x (a +:+ (b +:+ c)))%string.
  by rewrite IH.
Qed.

Lemma string_app_empty_r (a : string) : (a +:+ "" = a)%string.
Proof.
  induction a as [|x a IH]; [done|].
  change (String x (a +:+ "") = String x a)%string. by rewrite IH.
Qed.

Lemma string_of_list_app (l1 l2 : list ascii) :
  String.string_of_list_ascii (l1 ++ l2)
  = (String.string_of_list_ascii l1 +:+ String.string_of_list_ascii l2)%string.
Proof.
  induction l1 as [|x l1 IH]; [done|].
  change (String x (String.string_of_list_ascii (l1 ++ l2))
          = String x (String.string_of_list_ascii l1
                      +:+ String.string_of_list_ascii l2))%string.
  by rewrite IH.
Qed.

Lemma string_get_of_list (l : list ascii) (n : nat) :
  String.get n (String.string_of_list_ascii l) = l !! n.
Proof.
  revert n. induction l as [|x l IH]; intros [|n]; simpl; done.
Qed.

Lemma string_length_of_list (l : list ascii) :
  String.length (String.string_of_list_ascii l) = length l.
Proof. induction l as [|x l IH]; simpl; [done|]. by rewrite IH. Qed.

Lemma lookup_marks {A : Type} (f : A → ascii) (sp : ascii) (l : list A) (i : nat) x :
  l !! i = Some x →
  (l ≫= λ c, [f c; sp]) !! (2 * i)%nat = Some (f x)
  ∧ (l ≫= λ c, [f c; sp]) !! (2 * i + 1)%nat = Some sp.
Proof.
  revert i. induction l as [|y l IH]; intros i Hi; [done|].
  destruct i as [|i]; simpl in *.
  - injection Hi as ->. done.
  - destruct (IH i Hi) as [H1 H2].
    replace (i + S (i + 0))%nat with (S (2 * i)) by lia. simpl.
    replace (i + (i + 0))%nat with (2 * i)%nat by lia. done.
Qed.

Lemma length_marks {A : Type} (f : A → ascii) (sp : ascii) (l : list A) :
  length (l ≫= λ c, [f c; sp]) = (2 * length l)%nat.
Proof.
  induction l as [|y l IH]; [done|].
  rewrite bind_cons, length_app, IH. simpl. lia.
Qed.

Lemma in_bounds_getitem grid r c :
  in_bounds grid (r, c) →
  ∃ line v, getitem grid r = Ret line ∧ getitem line c = Ret v
            ∧ cell_at grid (r, c) = Some v.
Proof.
  intros [v Hv]. pose proof Hv as Hcell. unfold cell_at in Hv. simpl in Hv.
  destruct (Z.leb_spec 0 r); [|done]. destruct (Z.leb_spec 0 c); [|done]. simpl in Hv.
  destruct (grid !! Z.to_nat r) as [line|] eqn:Hline; [simpl in Hv|done].
  exists line, v. split_and!; [by apply getitem_Some..|done].
Qed.

Section Picture.

Variable grid : grid_t.
Variables start goal : coord.
Variable path : list coord.

Local Abbreviation mark' := (mark grid start goal path).
Local Abbreviation marks' := (marks grid start goal path).

Lemma symbol_mark r c :
  in_bounds grid (r, c) →
  Demo.symbol grid start goal path r c = Ret (String (mark' (r, c)) " ").
Proof.
  intros (line & v & Hline & Hv & Hcell)%in_bounds_getitem.
  unfold Demo.symbol, mark.
  destruct (decide ((r, c) = start)); [done|].
  destruct (decide ((r, c) = goal)); [done|].
  destruct (decide ((r, c) ∈ path)); [done|].
  rewrite Hline. simpl. rewrite Hv, Hcell. simpl.
  destruct (Z.eqb_spec v 1) as [->|Hne].
  - by rewrite decide_True.
  - by rewrite decide_False by naive_solver.
Qed.

Lemma picture_row_fold r l acc :
  (∀ c, c ∈ l → in_bounds grid (r, c)) →
  foldM (λ c row, s ← Demo.symbol grid start goal path r c; Ret (row +:+ s)) l acc
  = Ret (acc +:+ String.string_of_list_ascii (marks' r l))%string.
Proof.
  revert acc. induction l as [|c l IH]; intros acc Hl; simpl.
  - by rewrite string_app_empty_r.
  - rewrite symbol_mark by (apply Hl; set_solver). simpl.
    rewrite IH by (intros c' Hc'; apply Hl; set_solver).
    by rewrite string_app_assoc.
Qed.

Variable row0 : list Z.
Hypothesis Hrow0 : grid !! 0%nat = Some row0.
Hypothesis Hrect : rectangular grid.

Lemma picture_row_spec r :
  0 ≤ r < len grid →
  Demo.picture_row grid start goal path r
  = Ret (String.string_of_list_ascii (marks' r (seqZ 0 (len row0)))).
Proof using Hrow0 Hrect.
  intros Hr. unfold Demo.picture_row.
  rewrite (getitem_Some grid 0 row0) by done. simpl.
  rewrite picture_row_fold; [done|].
  intros c Hc%elem_of_seqZ. apply (in_bounds_iff grid row0 (r, c) Hrow0 Hrect).
  simpl. lia.
Qed.

Lemma picture_fold l out :
  (∀ r, r ∈ l → 0 ≤ r < len grid) →
  foldM (λ r out, row ← Demo.picture_row grid start goal path r; Ret (out ++ [row]))
    l out
  = Ret (out ++ ((λ r, String.string_of_list_ascii (marks' r (seqZ 0 (len row0))))
                   <$> l)).
Proof using Hrow0 Hrect.
  revert out. induction l as [|r l IH]; intros out Hl; simpl.
  - by rewrite app_nil_r.
  - rewrite picture_row_spec by (apply Hl; set_solver). simpl.
    rewrite IH by (intros r' Hr'; apply Hl; set_solver).
    by rewrite <- app_assoc.
Qed.

Lemma picture_spec :
  Demo.picture grid start goal path
  = Ret ((λ r, String.string_of_list_ascii (marks' r (seqZ 0 (len row0))))
           <$> seqZ 0 (len grid)).
Proof using Hrow0 Hrect.
  unfold Demo.picture. rewrite picture_fold; [done|].
  intros r Hr%elem_of_seqZ. lia.
Qed.

End Picture.



(** ** More on [astar]: distances *)

Lemma chain_snoc (R : coord → coord → Prop) l u v :
  chain R l → last l = Some u → R u v → chain R (l ++ [v]).
Proof.
  induction l as [|x l IH]; intros Hch Hlast HR; [done|].
  destruct l as [|y l].
  - injection Hlast as ->. by split.
  - destruct Hch as [Hxy Hch]. rewrite last_cons_cons in Hlast.
    split; [done|]. by apply IH.
Qed.

Lemma reach_route grid s n x :
  walkable grid s → reach grid s n x → ∃ l, route grid s x l ∧ steps l = n.
Proof.
  intros Hs. induction 1 as [|n u v Hu (l & (Hhd & Hlast & Hall & Hch) & Hn) [Hadj Hv]].
  - exists [s]. split; [|done]. split_and!; try done. by constructor.
  - exists (l ++ [v]). split.
    + split_and!.
      * by destruct l.
      * apply last_snoc.
      * apply Forall_app. split; [done|]. by constructor.
      * by eapply chain_snoc.
    + unfold steps, len in *. rewrite length_app. simpl. lia.
Qed.

Lemma chain_adjacent_reverse l : chain adjacent l → chain adjacent (reverse l).
Proof.
  induction l as [|x l IH]; intros Hch; [done|].
  destruct l as [|y l]; [done|]. destruct Hch as [Hxy Hch].
  rewrite reverse_cons. eapply chain_snoc; [by apply IH| |by apply adjacent_sym].
  by rewrite last_reverse.
Qed.

Lemma route_reverse grid s t l : route grid s t l → route grid t s (reverse l).
Proof.
  intros (Hhd & Hlast & Hall & Hch). split_and!.
  - by rewrite head_reverse.
  - by rewrite last_reverse.
  - by apply Forall_reverse.
  - by apply chain_adjacent_reverse.
Qed.

Lemma astar_shortest grid start goal :
  rectangular grid → walkable grid start →
  match AstarClaude.astar grid start goal with
  | Ret (Some path) =>
      route grid start goal path ∧ ∀ l, route grid start goal l → steps path ≤ steps l
  | Ret None => ∀ l, ¬ route grid start goal l
  | _ => False
  end.
Proof.
  intros Hrect Hs.
  destruct (in_bounds_row0 grid start (walkable_in_bounds _ _ Hs)) as [row0 Hrow0].
  pose proof (astar_spec grid start goal row0 Hrow0 Hrect) as Hspec.
  destruct (AstarClaude.astar grid start goal) as [[path|]| |]; try done.
  - by apply good_path_shortest.
  - intros l Hl. by apply (Hspec (steps l)), route_reach.
Qed.

(** X23: the distance found does not depend on the direction: on a
    rectangular grid with walkable [s] and [t], the searches from [s] to [t]
    and from [t] to [s] both fail or both return paths with the same number
    of steps. *)
Theorem astar_symmetric grid s t :
  rectangular grid → walkable grid s → walkable grid t →
  match AstarClaude.astar grid s t, AstarClaude.astar grid t s with
  | Ret (Some p), Ret (Some q) => steps p = steps q
  | Ret None, Ret None => True
  | _, _ => False
  end.
Proof.
  intros Hrect Hs Ht.
  pose proof (astar_shortest grid s t Hrect Hs) as H1.
  pose proof (astar_shortest grid t s Hrect Ht) as H2.
  assert (∀ a b l, route grid a b l → steps (reverse l) = steps l) as Hlen
    by (intros; unfold steps, len; by rewrite length_reverse).
  destruct (AstarClaude.astar grid s t) as [[p|]| |],
           (AstarClaude.astar grid t s) as [[q|]| |]; try done.
  - destruct H1 as [Hp Hpmin], H2 as [Hq Hqmin].
    pose proof (Hpmin _ (route_reverse _ _ _ _ Hq)).
    pose proof (Hqmin _ (route_reverse _ _ _ _ Hp)).
    rewrite (Hlen _ _ _ Hq) in *. rewrite (Hlen _ _ _ Hp) in *. lia.
  - destruct H1 as [Hp _]. by apply (H2 (reverse p)), route_reverse.
  - destruct H2 as [Hq _]. by apply (H1 (reverse q)), route_reverse.
Qed.

Lemma astar_symmetric_witness :
  steps [(0, 0); (1, 0); (1, 1)] = steps [(1, 1); (1, 0); (0, 0)].
Proof.
  apply (astar_symmetric small_grid (0, 0) (1, 1)).
  - apply (rectangular_Forall 2). repeat constructor.
  - reflexivity.
  - reflexivity.
Defined.

(** X24: obstacles never help: if every cell walkable in [grid'] is walkable
    in [grid] and the search finds a path on [grid'], it finds one on [grid]
    too, with no more steps. *)
Theorem astar_fewer_walls grid grid' start goal q :
  rectangular grid → rectangular grid' →
  walkable grid' start → (∀ p, walkable grid' p → walkable grid p) →
  AstarClaude.astar grid' start goal = Ret (Some q) →
  ∃ p, AstarClaude.astar grid start goal = Ret (Some p) ∧ steps p ≤ steps q.
Proof.
  intros Hrect Hrect' Hs Hsub Hres.
  pose proof (astar_shortest grid' start goal Hrect' Hs) as H'.
  rewrite Hres in H'. destruct H' as [(Hhd & Hlast & Hall & Hch) _].
  assert (route grid start goal q) as Hq.
  { split_and!; try done. eapply Forall_impl; [exact Hall|]. exact Hsub. }
  pose proof (astar_shortest grid start goal Hrect (Hsub _ Hs)) as H.
  destruct (AstarClaude.astar grid start goal) as [[p|]| |]; try done.
  - exists p. split; [done|]. by apply H.
  - by destruct (H q).
Qed.

Lemma astar_fewer_walls_witness :
  ∃ p, AstarClaude.astar [[0; 0]; [0; 0]] (0, 0) (1, 0) = Ret (Some p)
       ∧ steps p ≤ steps [(0, 0); (1, 0)].
Proof.
  apply (astar_fewer_walls [[0; 0]; [0; 0]] small_grid (0, 0) (1, 0) [(0, 0); (1, 0)]).
  - apply (rectangular_Forall 2). repeat constructor.
  - apply (rectangular_Forall 2). repeat constructor.
  - reflexivity.
  - intros [r c]. unfold walkable, cell_at. simpl.
    destruct (0 <=? r); [|done]. destruct (0 <=? c); [|done]. simpl.
    destruct (Z.to_nat r) as [|[|n]]; simpl; [| |done].
    + destruct (Z.to_nat c) as [|[|m]]; simpl; done.
    + destruct (Z.to_nat c) as [|[|m]]; simpl; done.
  - vm_compute. reflexivity.
Defined.

Lemma good_path_prefix grid start goal path (i : nat) x :
  walkable grid start → good_path grid start goal path → path !! i = Some x →
  shortest_distance grid start x (Z.of_nat i).
Proof.
  intros Hs Hgood Hi. pose proof (lookup_lt_Some _ _ _ Hi) as Hlt.
  rewrite <- (take_drop_middle path i x Hi) in Hgood.
  apply path_prefix_optimal in Hgood as [Hr Hmin]. unfold len in *.
  rewrite length_take, Nat.min_l in * by lia. split.
  - destruct (reach_route grid start _ x Hs Hr) as (l & Hl & Hn). eauto.
  - intros l Hl. by apply Hmin, route_reach.
Qed.

(** X25: every cell of a returned path is as close to [start] as it can be:
    on a rectangular grid with a walkable start, the cell at position [i] of
    the path is at shortest distance [i] from [start]. *)
Theorem astar_path_distances grid start goal path (i : nat) x :
  rectangular grid → walkable grid start →
  AstarClaude.astar grid start goal = Ret (Some path) → path !! i = Some x →
  shortest_distance grid start x (Z.of_nat i).
Proof.
  intros Hrect Hs Hres Hi.
  destruct (in_bounds_row0 grid start (walkable_in_bounds _ _ Hs)) as [row0 Hrow0].
  pose proof (astar_spec grid start goal row0 Hrow0 Hrect) as Hspec.
  rewrite Hres in Hspec. by eapply good_path_prefix.
Qed.

Lemma astar_path_distances_witness :
  shortest_distance example_grid (0, 0) (4, 1) (Z.of_nat 5).
Proof.
  apply (astar_path_distances example_grid (0, 0) (4, 4)
           [(0, 0); (1, 0); (2, 0); (3, 0); (4, 0); (4, 1); (4, 2); (4, 3); (4, 4)]).
  - apply (rectangular_Forall 5). repeat constructor.
  - reflexivity.
  - vm_compute. reflexivity.
  - reflexivity.
Defined.

(** X26: "Clear Path" takes every path dot off the canvas and leaves the
    grid, start and goal as they are. *)
Theorem gui_clear_path_erases rows0 cols0 cell0 pad0 self :
  AStarGUI.reachable rows0 cols0 cell0 pad0 self →
  ∃ self', AStarGUI.clear_path self = Ok self'
           ∧ AStarGUI.grid self' = AStarGUI.grid self
           ∧ AStarGUI.start self' = AStarGUI.start self
           ∧ AStarGUI.goal self' = AStarGUI.goal self
           ∧ AStarGUI.path self' = []
           ∧ ∀ rc, rc ∈ AStarGUI.cells self' → label_at self' rc ≠ Some "•"%string.
Proof.
  intros [(Hwf & Hends & _) _]%reachable_inv. unfold AStarGUI.clear_path.
  destruct (refresh_step (AStarGUI.with_path [] self))
    as (s1 & -> & _ & _ & Hsh & Hg & Hs & Ht & Hp & _); [done|done|by left|].
  exists s1. simpl in *. split_and!; try done.
  intros rc Hrc. rewrite (label_shown s1 _ rc Hsh Hrc), Hp. unfold shown.
  repeat case_decide; simpl; try done. set_solver.
Qed.

Lemma gui_clear_path_erases_witness :
  ∃ self', AStarGUI.clear_path example_window_run = Ok self'
           ∧ AStarGUI.grid self' = AStarGUI.grid example_window_run
           ∧ AStarGUI.start self' = AStarGUI.start example_window_run
           ∧ AStarGUI.goal self' = AStarGUI.goal example_window_run
           ∧ AStarGUI.path self' = []
           ∧ ∀ rc, rc ∈ AStarGUI.cells self' → label_at self' rc ≠ Some "•"%string.
Proof.
  apply (gui_clear_path_erases 2 2 10 3 example_window_run).
  apply example_window_run_reachable.
Defined.
